(** * Passkey origin validator: a model of [src/validator.ts] and its properties

    The validator decides whether a caller origin may assert a WebAuthn
    Relying Party ID.  It is built from four functions, all modelled here:
    [getLabel], [validateWellKnownJSON], [fetchWellKnownWebAuthn],
    [isValidDomainForOrigin] and their composition [validateOrigin].

    The code relies on four collaborators that are not part of the
    repository: the WHATWG [URL] constructor, [psl.parse] of the public
    suffix list package, [JSON.parse] and [fetch].  They are gathered in
    the record [Env]; every general theorem quantifies over it.  The module
    [Fixture] at the end of the definitions gives one executable
    environment on which the functions are run on the documents of the
    test suite. *)

From Stdlib Require Import String Ascii ZArith Bool Lia DecimalString.
From stdpp Require Import base option list gmap strings.

Set Warnings "-register-all,-clear-no-such-hyp".
Local Open Scope Z_scope.
#[local] Arguments String.append !_ _ / : simpl nomatch.

(** ** JavaScript string primitives

    A JavaScript string is a sequence of code units.  The validator only
    compares, searches, cuts and measures strings, which does not depend on
    the width of a unit, so strings are modelled by [string]. *)

Module JS.

(** [s.indexOf(pat)] as a natural number, [None] standing for [-1]. *)
Fixpoint find (s pat : string) : option nat :=
  if String.prefix pat s then Some 0%nat
  else match s with
       | EmptyString => None
       | String _ s' => S <$> find s' pat
       end.

(** [s.indexOf(pat)]. *)
Definition indexOf (s pat : string) : Z :=
  match find s pat with
  | Some n => Z.of_nat n
  | None => -1
  end.

(** [s.substring(0, n)] for [0 <= n]. *)
Definition substring0 (s : string) (n : Z) : string :=
  String.substring 0 (Z.to_nat n) s.

(** [s.startsWith(p)]. *)
Definition startsWith (s p : string) : bool := String.prefix p s.

(** [s.endsWith(suf)]: the last [length suf] units of [s] are [suf]. *)
Definition endsWith (s suf : string) : bool :=
  let n := String.length s in
  let m := String.length suf in
  (m <=? n)%nat && String.eqb (String.substring (n - m) m s) suf.

(** [s.split(sep)] for a non-empty separator.  [skip] counts the units of
    a separator that has just been recognised and is still to be dropped;
    [cur] is the piece being read. *)
Fixpoint splitFrom (sep s : string) (skip : nat) (cur : string) : list string :=
  match s with
  | EmptyString => [cur]
  | String c s' =>
      match skip with
      | S k => splitFrom sep s' k cur
      | O =>
          if String.prefix sep s
          then cur :: splitFrom sep s' (String.length sep - 1) EmptyString
          else splitFrom sep s' 0 (cur +:+ String c EmptyString)
      end
  end.

Definition split (s sep : string) : list string := splitFrom sep s 0 EmptyString.

(** White space that [parseInt] skips. *)
Definition isWhite (c : ascii) : bool :=
  let n := Ascii.nat_of_ascii c in
  ((9 <=? n) && (n <=? 13) || (n =? 32))%nat.

(** The value of a digit in the given radix. *)
Definition digit (radix : Z) (c : ascii) : option Z :=
  let n := Z.of_nat (Ascii.nat_of_ascii c) in
  let v := if (48 <=? n) && (n <=? 57) then Some (n - 48)
           else if (97 <=? n) && (n <=? 122) then Some (n - 87)
           else if (65 <=? n) && (n <=? 90) then Some (n - 55)
           else None in
  match v with
  | Some d => if d <? radix then Some d else None
  | None => None
  end.

(** The longest run of digits at the start of [s], read in [radix];
    [None] when there is no digit. *)
Fixpoint digits (radix : Z) (s : string) (acc : option Z) : option Z :=
  match s with
  | EmptyString => acc
  | String c s' =>
      match digit radix c with
      | Some d => digits radix s' (Some (default 0 acc * radix + d))
      | None => acc
      end
  end.

Fixpoint skipWhite (s : string) : string :=
  match s with
  | String c s' => if isWhite c then skipWhite s' else s
  | EmptyString => s
  end.

(** [parseInt(s)]; [None] is [NaN]. *)
Definition parseInt (s : string) : option Z :=
  let s := skipWhite s in
  let '(sign, s) :=
    match s with
    | String "-" s' => (-1, s')
    | String "+" s' => (1, s')
    | _ => (1, s)
    end in
  let '(radix, s) :=
    match s with
    | String "0" (String "x" s') | String "0" (String "X" s') => (16, s')
    | _ => (10, s)
    end in
  Z.mul sign <$> digits radix s None.

(** Truthiness of a string: only the empty string is falsy. *)
Definition truthy (s : string) : bool := negb (String.eqb s EmptyString).

End JS.

(** [s] contains [pat] as a substring. *)
Definition contains (s pat : string) : Prop :=
  ∃ a b : string, s = a +:+ pat +:+ b.

(** ** [types.ts] *)

Inductive AuthenticatorStatus : Set :=
| SUCCESS
| BAD_RELYING_PARTY_ID_JSON_PARSE_ERROR
| BAD_RELYING_PARTY_ID_NO_JSON_MATCH
| BAD_RELYING_PARTY_ID_NO_JSON_MATCH_HIT_LIMITS
| BAD_RELYING_PARTY_ID_NOT_SUBDOMAIN_OF_ORIGIN.

(** The numeric value of each member of the enum. *)
Definition ordinal (s : AuthenticatorStatus) : Z :=
  match s with
  | SUCCESS => 0
  | BAD_RELYING_PARTY_ID_JSON_PARSE_ERROR => 1
  | BAD_RELYING_PARTY_ID_NO_JSON_MATCH => 2
  | BAD_RELYING_PARTY_ID_NO_JSON_MATCH_HIT_LIMITS => 3
  | BAD_RELYING_PARTY_ID_NOT_SUBDOMAIN_OF_ORIGIN => 4
  end.

Module CONSTANTS.
Definition MAX_LABELS : nat := 5.
Definition WELL_KNOWN_PATH : string := "/.well-known/webauthn".
Definition MAX_BODY_SIZE : Z := Z.shiftl 1 18.
Definition TIMEOUT : Z := 10000.
End CONSTANTS.

(** ** Values and completions *)

(** What [JSON.parse] returns.  A number is kept as its decimal literal
    [mantissa * 10 ^ exponent]; the members of an object are kept in
    document order. *)
Inductive JSON : Type :=
| JNull
| JBool (b : bool)
| JNumber (mantissa exponent : Z)
| JString (s : string)
| JArray (elems : list JSON)
| JObject (members : list (string * JSON)).

(** The errors the validator can raise or let through. *)
Inductive Error : Type :=
| TypeError                              (* property read on [null] *)
| InvalidDomain                          (* [Invalid domain: ...] *)
| HttpError (status : Z)                 (* [HTTP <status>: <text>] *)
| ResponseTooLarge (size : Z)            (* [Response too large: <n> bytes] *)
| RequestTimeout                         (* [Request timeout] *)
| NetworkError.                          (* whatever [fetch] rejected with *)

(** The outcome of running a function body: a returned value or a thrown
    error. *)
Inductive Completion (A : Type) : Type :=
| Return (a : A)
| Throw (e : Error).
Arguments Return {A} a.
Arguments Throw {A} e.

(** Sequencing, written [x ← c; k]: a thrown error skips the rest of the
    block. *)
#[global] Instance Completion_bind : MBind Completion := λ A B k c,
  match c with
  | Return a => k a
  | Throw e => Throw e
  end.

(** [try { body } catch (error) { handler }]. *)
Definition try_catch {A} (body : Completion A) (handler : Error → Completion A)
  : Completion A :=
  match body with
  | Return a => Return a
  | Throw e => handler e
  end.

(** What a call of an [async] function comes to: its promise is settled,
    with the completion of the body, or it stays pending, when the body
    awaits a promise that never settles.  A completion is read as the
    promise settled with it. *)
Inductive Promise (A : Type) : Type :=
| Settled (c : Completion A)
| Pending.
Arguments Settled {A} c.
Arguments Pending {A}.

Coercion Settled : Completion >-> Promise.

(** [await]: a pending promise leaves the rest of the body unrun. *)
#[global] Instance Promise_bind : MBind Promise := λ A B k p,
  match p with
  | Settled (Return a) => k a
  | Settled (Throw e) => Throw e
  | Pending => Pending
  end.

(** [try { body } catch (error) { handler }] around an [await]: a promise
    that stays pending throws nothing, and the handler does not run. *)
Definition try_catch_async {A} (body : Promise A) (handler : Error → Promise A)
  : Promise A :=
  match body with
  | Settled (Return a) => Return a
  | Settled (Throw e) => handler e
  | Pending => Pending
  end.

(** ** Collaborators *)

(** The part of a [URL] object the validator reads. *)
Record URL := { protocol : string; hostname : string }.

(** What [psl.parse] returns on a string: an object with an [error] member
    and no [domain] member, or a parsed object whose [domain] is a string
    or [null].  It throws only on an argument that is not a string, which
    the types of the callers exclude. *)
Inductive ParsedDomain : Type :=
| ErrorResult
| Parsed (domain : option string).

(** What [await fetch(url, ...)] and then [await response.text()] give.
    [status] is the HTTP status, [content_length] the header of that name
    if there is one, [text] the body, [None] when reading it is rejected.
    A request aborted by the timer is [Aborted].  [Stalled r] is a response
    whose status and headers arrive and whose body never does:
    [response.text()] stays pending, and [text r] is not looked at.  The
    timer can abort the request only until the response arrives, since it
    is cleared then. *)
Record Response := {
  status : Z;
  content_length : option string;
  text : option string
}.

Inductive FetchOutcome : Type :=
| Resolved (r : Response)
| Stalled (r : Response)
| Aborted
| Rejected.

Record Env := {
  URL_new : string → option URL;          (* [None]: the constructor throws *)
  psl_parse : string → ParsedDomain;
  JSON_parse : string → option JSON;      (* [None]: [JSON.parse] throws *)
  fetch : string → FetchOutcome
}.

(** ** [validator.ts] *)

Section Validator.
Context (env : Env).

(** The test [!parsed || typeof parsed === 'string' || !('domain' in parsed)
    || !parsed.domain] fails exactly when [parsed.domain] is a non-empty
    string; [registrable] is that string. *)
Definition registrable (name : string) : option string :=
  match psl_parse env name with
  | ErrorResult => None
  | Parsed None => None
  | Parsed (Some d) => if JS.truthy d then Some d else None
  end.

(** [getLabel]; [None] stands for the thrown [Error('Skip Domain not
    valid')]. *)
Definition getLabel (domain : string) : option string :=
  let dotIndex := JS.indexOf domain "." in
  if dotIndex =? -1 then None
  else
    match registrable domain with
    | None => None
    | Some etldPlus1 =>
        let labelDotIndex := JS.indexOf etldPlus1 "." in
        if labelDotIndex =? -1 then Some etldPlus1
        else Some (JS.substring0 etldPlus1 labelDotIndex)
    end.

(** [isValidDomainForOrigin].  The whole body is inside [try], and the
    [catch] returns [false]. *)
Definition isValidDomainForOrigin (callerOrigin domain : string) : bool :=
  match URL_new env callerOrigin with
  | None => false
  | Some originURL =>
      let originHostname := hostname originURL in
      if String.eqb domain originHostname then true
      else if negb (JS.endsWith originHostname ("." +:+ domain)) then false
      else
        match registrable originHostname, registrable domain with
        | None, _ => false
        | _, None => false
        | Some originETLDPlus1, Some domainETLDPlus1 =>
            if String.eqb domain originETLDPlus1 then true
            else if String.eqb domainETLDPlus1 originETLDPlus1
                    && JS.endsWith originHostname ("." +:+ domain)
                 then true
                 else false
        end
  end.

(** [webAuthnResp.origins]: reading a property of [null] throws a
    [TypeError]; booleans, numbers, strings and arrays have no property of
    that name, which reads as [undefined] ([None]); on an object the last
    member of that name is read. *)
Definition get_origins (webAuthnResp : JSON) : Completion (option JSON) :=
  match webAuthnResp with
  | JNull => Throw TypeError
  | JObject members =>
      Return (foldl (λ found m, if String.eqb (fst m) "origins"
                                then Some (snd m) else found) None members)
  | _ => Return None
  end.

(** A decimal literal denotes the number zero when its mantissa is zero or
    when it is so small that it rounds to zero (at most [2 ^ -1075]). *)
Definition number_is_zero (mantissa exponent : Z) : bool :=
  (mantissa =? 0)
  || ((exponent <? 0) && (Z.abs mantissa * 2 ^ 1075 <=? 10 ^ (- exponent))).

(** Truthiness of a value that may be [undefined]. *)
Definition truthy (v : option JSON) : bool :=
  match v with
  | None | Some JNull => false
  | Some (JBool b) => b
  | Some (JNumber m e) => negb (number_is_zero m e)
  | Some (JString s) => JS.truthy s
  | Some (JArray _) | Some (JObject _) => true
  end.

(** [Array.isArray]. *)
Definition isArray (v : option JSON) : bool :=
  match v with
  | Some (JArray _) => true
  | _ => false
  end.

(** The first loop over [origins]: it returns the parse error at the first
    element that is not a string.  When it runs to the end the elements are
    strings, and the second loop reads them as such. *)
Fixpoint all_strings (elems : list JSON) : option (list string) :=
  match elems with
  | [] => Some []
  | JString s :: rest => cons s <$> all_strings rest
  | _ :: _ => None
  end.

(** [str.split('://')[0]]; [split] never returns an empty array. *)
Definition schemeOf (str : string) : string :=
  hd EmptyString (JS.split str "://").

(** [str.split('://')[1]?.split('/')[0] || '']. *)
Definition hostOf (str : string) : string :=
  match JS.split str "://" !! 1%nat with
  | None => EmptyString
  | Some rest => hd EmptyString (JS.split rest "/")
  end.

(** The comparison that decides a match. *)
Definition sameSchemeAndHost (originStr callerOrigin : string) : bool :=
  let originScheme := schemeOf originStr in
  let originHost := hostOf originStr in
  let callerScheme := schemeOf callerOrigin in
  let callerHost := hostOf callerOrigin in
  String.eqb originScheme callerScheme && String.eqb originHost callerHost.

(** The state of the second loop. *)
Record Quota := { uniqueLabels : gset string; hitLimits : bool }.

Definition emptyQuota : Quota := {| uniqueLabels := ∅; hitLimits := false |}.

(** What the loop does next: leave with [SUCCESS], or go on. *)
Inductive Scan : Type :=
| Matched
| Continue (q : Quota).

(** The label of an element of [origins], when it has one: the element
    parses as a URL, its hostname is not empty and [getLabel] returns. *)
Definition labelOf (originStr : string) : option string :=
  match URL_new env originStr with
  | None => None
  | Some originURL =>
      let domain := hostname originURL in
      if negb (JS.truthy domain) then None else getLabel domain
  end.

(** One iteration of the second loop. *)
Definition scanStep (callerOrigin : string) (q : Quota) (originStr : string) : Scan :=
  match labelOf originStr with
  | None => Continue q
  | Some etldPlus1Label =>
      let compare q' :=
        if sameSchemeAndHost originStr callerOrigin then Matched else Continue q' in
      if negb (bool_decide (etldPlus1Label ∈ uniqueLabels q)) then
        if (CONSTANTS.MAX_LABELS <=? size (uniqueLabels q))%nat
        then Continue {| uniqueLabels := uniqueLabels q; hitLimits := true |}
        else compare {| uniqueLabels := {[etldPlus1Label]} ∪ uniqueLabels q;
                        hitLimits := hitLimits q |}
      else compare q
  end.

(** The second loop, from the state [q] on. *)
Fixpoint scan (callerOrigin : string) (origins : list string) (q : Quota) : Scan :=
  match origins with
  | [] => Continue q
  | originStr :: rest =>
      match scanStep callerOrigin q originStr with
      | Matched => Matched
      | Continue q' => scan callerOrigin rest q'
      end
  end.

(** [validateWellKnownJSON]. *)
Definition validateWellKnownJSON (callerOrigin jsonData : string)
  : Completion AuthenticatorStatus :=
  match JSON_parse env jsonData with
  | None => Return BAD_RELYING_PARTY_ID_JSON_PARSE_ERROR
  | Some webAuthnResp =>
      match get_origins webAuthnResp with
      | Throw e => Throw e
      | Return origins =>
          if negb (truthy origins) || negb (isArray origins)
          then Return BAD_RELYING_PARTY_ID_JSON_PARSE_ERROR
          else
            match origins with
            | Some (JArray elems) =>
                match all_strings elems with
                | None => Return BAD_RELYING_PARTY_ID_JSON_PARSE_ERROR
                | Some strs =>
                    match URL_new env callerOrigin with
                    | None => Return BAD_RELYING_PARTY_ID_NO_JSON_MATCH
                    | Some _ =>
                        match scan callerOrigin strs emptyQuota with
                        | Matched => Return SUCCESS
                        | Continue q =>
                            if hitLimits q
                            then Return BAD_RELYING_PARTY_ID_NO_JSON_MATCH_HIT_LIMITS
                            else Return BAD_RELYING_PARTY_ID_NO_JSON_MATCH
                        end
                    end
                end
            | _ => Return BAD_RELYING_PARTY_ID_JSON_PARSE_ERROR
            end
      end
  end.

(** [response.ok]: the status is in the range 200 to 299. *)
Definition ok (r : Response) : bool := (200 <=? status r) && (status r <=? 299).

(** [fetchWellKnownWebAuthn]. *)
Definition fetchWellKnownWebAuthn (domain : string) : Promise string :=
  let domain :=
    if negb (JS.startsWith domain "https://") && negb (JS.startsWith domain "http://")
    then "https://" +:+ domain else domain in
  match URL_new env domain with
  | None => Throw InvalidDomain
  | Some parsedURL =>
      let wellKnownURL :=
        protocol parsedURL +:+ "//" +:+ hostname parsedURL
        +:+ CONSTANTS.WELL_KNOWN_PATH in
      match fetch env wellKnownURL with
      | Rejected => Throw NetworkError
      | Aborted => Throw RequestTimeout
      | (Resolved response | Stalled response) as exchange =>
          (* the timer is cleared here *)
          if negb (ok response) then Throw (HttpError (status response))
          else
            let tooLarge :=
              match content_length response with
              | None => None
              | Some contentLength =>
                  if JS.truthy contentLength then
                    match JS.parseInt contentLength with
                    | Some n => if n >? CONSTANTS.MAX_BODY_SIZE then Some n else None
                    | None => None
                    end
                  else None
              end in
            match tooLarge with
            | Some n => Throw (ResponseTooLarge n)
            | None =>
                (* [await response.text()] *)
                match exchange with
                | Stalled _ => Pending
                | _ =>
                    match text response with
                    | None => Throw NetworkError
                    | Some body =>
                        let len := Z.of_nat (String.length body) in
                        if len >? CONSTANTS.MAX_BODY_SIZE
                        then Throw (ResponseTooLarge len)
                        else Return body
                    end
                end
            end
      end
  end.

(** [validateOrigin]. *)
Definition validateOrigin (callerOrigin domain : string)
  : Promise AuthenticatorStatus :=
  if isValidDomainForOrigin callerOrigin domain then Return SUCCESS
  else
    try_catch_async
      (jsonData ← fetchWellKnownWebAuthn domain;
       Settled (validateWellKnownJSON callerOrigin jsonData))
      (λ _, Return BAD_RELYING_PARTY_ID_NO_JSON_MATCH).

End Validator.

(** ** The vocabulary of the properties *)

Section Vocabulary.
Context (env : Env).

(** [v] is an object whose member [origins] is [x].  When a name occurs
    more than once in a document, [JSON.parse] keeps the last value. *)
Definition hasOrigins (v x : JSON) : Prop :=
  ∃ before after,
    v = JObject (before ++ ("origins", x) :: after)
    ∧ Forall (λ m, m.1 ≠ "origins") after.

(** The document parses to an object whose [origins] is the array of the
    strings [origins]. *)
Definition structurallyValid (jsonData : string) (origins : list string) : Prop :=
  ∃ v, JSON_parse env jsonData = Some v
       ∧ hasOrigins v (JArray (JString <$> origins)).

(** The status at the end of the second loop. *)
Definition outcome (r : Scan) : AuthenticatorStatus :=
  match r with
  | Matched => SUCCESS
  | Continue q =>
      if hitLimits q then BAD_RELYING_PARTY_ID_NO_JSON_MATCH_HIT_LIMITS
      else BAD_RELYING_PARTY_ID_NO_JSON_MATCH
  end.

(** The URL that [fetchWellKnownWebAuthn] requests for a domain. *)
Definition wellKnownURL (domain : string) : option string :=
  let domain :=
    if negb (JS.startsWith domain "https://") && negb (JS.startsWith domain "http://")
    then "https://" +:+ domain else domain in
  match URL_new env domain with
  | None => None
  | Some parsedURL =>
      Some (protocol parsedURL +:+ "//" +:+ hostname parsedURL
            +:+ "/.well-known/webauthn")
  end.


(** What [fetchWellKnownWebAuthn] does with a response it received. *)
Definition received (response : Response) : Completion string :=
  if negb (ok response) then Throw (HttpError (status response))
  else
    match
      match content_length response with
      | None => None
      | Some contentLength =>
          if JS.truthy contentLength then
            match JS.parseInt contentLength with
            | Some n => if n >? CONSTANTS.MAX_BODY_SIZE then Some n else None
            | None => None
            end
          else None
      end
    with
    | Some n => Throw (ResponseTooLarge n)
    | None =>
        match text response with
        | None => Throw NetworkError
        | Some body =>
            if Z.of_nat (String.length body) >? CONSTANTS.MAX_BODY_SIZE
            then Throw (ResponseTooLarge (Z.of_nat (String.length body)))
            else Return body
        end
    end.

(** What [fetchWellKnownWebAuthn] does with a response whose body never
    arrives: the status and the header are checked before the body is
    read. *)
Definition stalled (response : Response) : Promise string :=
  if negb (ok response) then Throw (HttpError (status response))
  else
    match
      match content_length response with
      | None => None
      | Some contentLength =>
          if JS.truthy contentLength then
            match JS.parseInt contentLength with
            | Some n => if n >? CONSTANTS.MAX_BODY_SIZE then Some n else None
            | None => None
            end
          else None
      end
    with
    | Some n => Throw (ResponseTooLarge n)
    | None => Pending
    end.

(** The fetch for [domain] comes to read a body that never arrives: the
    response has a 2xx status and no [Content-Length] that reads as a
    number over the limit, and its body stalls. *)
Definition BodyNeverArrives (domain : string) : Prop :=
  ∃ url r,
    wellKnownURL domain = Some url
    ∧ fetch env url = Stalled r
    ∧ 200 ≤ status r ≤ 299
    ∧ ∀ contentLength n,
        content_length r = Some contentLength →
        JS.parseInt contentLength = Some n → n ≤ 262144.

(** The labels that the elements of [origins] carry. *)
Definition labelsOf (origins : list string) : gset string :=
  list_to_set (omap (labelOf env) origins).

(** What the state of the loop knows about the labels [seen] so far: the
    admitted labels are among them and at most 5; the flag is raised
    exactly when more than 5 were seen, and until then all of them are
    admitted. *)
Definition tracks (seen : gset string) (q : Quota) : Prop :=
  uniqueLabels q ⊆ seen
  ∧ (size (uniqueLabels q) ≤ 5)%nat
  ∧ if hitLimits q then (5 < size seen)%nat else seen = uniqueLabels q.

End Vocabulary.

(** ** [types.ts]: the text of a status *)

(** A number in a template string, for an integer. *)
Definition numberToString (n : Z) : string := NilZero.string_of_int (Z.to_int n).

(** [authenticatorStatusToString].  At run time a status is a number, and
    the [default] branch serves the numbers that are not in the enum. *)
Definition authenticatorStatusToString (status : Z) : string :=
  if status =? ordinal SUCCESS then "Success"
  else if status =? ordinal BAD_RELYING_PARTY_ID_JSON_PARSE_ERROR then
    "Invalid format in .well-known/webauthn file"
  else if status =? ordinal BAD_RELYING_PARTY_ID_NO_JSON_MATCH then
    "Origin not authorized by the relying party"
  else if status =? ordinal BAD_RELYING_PARTY_ID_NO_JSON_MATCH_HIT_LIMITS then
    "Origin not authorized by the relying party (exceeded maximum of 5 unique domains)"
  else if status =? ordinal BAD_RELYING_PARTY_ID_NOT_SUBDOMAIN_OF_ORIGIN then
    "Relying Party ID is not a valid subdomain of the origin"
  else "Unknown status (" +:+ numberToString status +:+ ")".

(** ** [index.ts] *)

Module Index.

(** What the two entry points return. *)
Record Result := {
  isValid : bool;
  status : AuthenticatorStatus;
  message : string
}.

(** [isValidationSuccessful], [isParsingError] and [isLabelLimitHit]. *)
Definition isValidationSuccessful (status : AuthenticatorStatus) : bool :=
  ordinal status =? ordinal SUCCESS.
Definition isParsingError (status : AuthenticatorStatus) : bool :=
  ordinal status =? ordinal BAD_RELYING_PARTY_ID_JSON_PARSE_ERROR.
Definition isLabelLimitHit (status : AuthenticatorStatus) : bool :=
  ordinal status =? ordinal BAD_RELYING_PARTY_ID_NO_JSON_MATCH_HIT_LIMITS.

Section Index.
(** [error_message] is [error instanceof Error ? error.message : 'Unknown
    error'] for a thrown value. *)
Context (env : Env) (error_message : Error → string).

(** What both entry points build from a status. *)
Definition report (status : AuthenticatorStatus) : Result :=
  let isValid := ordinal status =? ordinal SUCCESS in
  let message := authenticatorStatusToString (ordinal status) in
  {| isValid := isValid; status := status; message := message |}.

(** [validatePasskeyOrigin].  The relying party comes first here and second
    in [validateOrigin]. *)
Definition validatePasskeyOrigin (rpId origin : string) : Promise Result :=
  try_catch_async
    (status ← validateOrigin env origin rpId;
     Settled (Return (report status)))
    (λ error,
       Return {| isValid := false;
                 status := BAD_RELYING_PARTY_ID_NO_JSON_MATCH;
                 message := "Validation failed: " +:+ error_message error |}).

(** [validatePasskeyOriginFromJSON]. *)
Definition validatePasskeyOriginFromJSON (origin wellKnownJson : string)
  : Completion Result :=
  try_catch
    (status ← validateWellKnownJSON env origin wellKnownJson;
     Return (report status))
    (λ error,
       Return {| isValid := false;
                 status := BAD_RELYING_PARTY_ID_JSON_PARSE_ERROR;
                 message := "Validation failed: " +:+ error_message error |}).

End Index.
End Index.

(** ** [logger.ts] and the validator that logs

    The later version of the library takes an optional logging function in
    every entry point.  A logging function acts on the world outside the
    validator, and it may throw.  The world is the console, that is the
    calls [console.log] and [console.error] received so far, and whatever
    else a logging function writes to.  [E] is the type of the error
    objects of the run time; every value thrown in this code is one. *)

Module Logged.

(** What the run time provides for errors and responses. *)
Record Runtime (E : Type) := {
  mkError : string → E;              (* [new Error(message)] *)
  errorToString : E → string;        (* [String(error)] *)
  errorMessage : E → string;         (* [error.message] *)
  isAbortError : E → bool;           (* [error.name === 'AbortError'] *)
  JSON_error : string → E;           (* what [JSON.parse] throws on a text *)
  URL_error : string → E;            (* what [new URL] throws on a string *)
  type_error : E;                    (* what reading a property of [null] throws *)
  fetch_rejected : string → E;       (* what a rejected [fetch] of a URL throws *)
  fetch_aborted : E;                 (* what an aborted [fetch] throws *)
  text_rejected : Response → E;      (* what a rejected [response.text()] throws *)
  statusText : Response → string     (* [response.statusText] *)
}.
Arguments mkError {E} _ _.
Arguments errorToString {E} _ _.
Arguments errorMessage {E} _ _.
Arguments isAbortError {E} _ _.
Arguments JSON_error {E} _ _.
Arguments URL_error {E} _ _.
Arguments type_error {E} _.
Arguments fetch_rejected {E} _ _.
Arguments fetch_aborted {E} _.
Arguments text_rejected {E} _ _.
Arguments statusText {E} _ _.

Record World (E S : Type) := {
  console_log : list (string * option E);
  console_error : list E;
  custom : S
}.
Arguments console_log {E S} _.
Arguments console_error {E S} _.
Arguments custom {E S} _.

(** How a computation ends: with a value, or with a thrown error; or it
    does not end, when it awaits a promise that stays pending. *)
Inductive Outcome (E A : Type) : Type :=
| Ret (a : A)
| Thr (e : E)
| Hang.
Arguments Ret {E A} a.
Arguments Thr {E A} e.
Arguments Hang {E A}.

Section Logged.
Context {E S : Type}.

#[local] Abbreviation World := (World E S).

(** [console.log(message)] and [console.log(message, error)]. *)
Definition consoleLog (message : string) (error : option E) (w : World) : World :=
  {| console_log := console_log w ++ [(message, error)];
     console_error := console_error w;
     custom := custom w |}.

(** [console.error(e)]. *)
Definition consoleError (e : E) (w : World) : World :=
  {| console_log := console_log w;
     console_error := console_error w ++ [e];
     custom := custom w |}.

(** A [LoggingAdapter]: called on a message and maybe an error, it changes
    the world, and returns ([None]) or throws ([Some e]). *)
Definition LoggingAdapter : Type := string → option E → World → World * option E.

(** [defaultLogger]. *)
Definition defaultLogger : LoggingAdapter :=
  λ message error w,
    match error with
    | Some err => (consoleLog message (Some err) w, None)
    | None => (consoleLog message None w, None)
    end.

(** [createLoggingAdapter]; its argument defaults to [defaultLogger]. *)
Definition createLoggingAdapter (loggingFunction : option LoggingAdapter)
  : LoggingAdapter :=
  let loggingFunction := default defaultLogger loggingFunction in
  λ message error w,
    let '(w1, thrown) :=
      match error with
      | Some err => loggingFunction message (Some err) w
      | None => loggingFunction message None w
      end in
    match thrown with
    | None => (w1, None)
    | Some e =>
        let w2 := consoleError e w1 in
        match error with
        | Some err => (consoleLog message (Some err) w2, None)
        | None => (consoleLog message None w2, None)
        end
    end.

(** Computations that act on the world. *)
Definition M (A : Type) : Type := World → World * Outcome E A.

#[global] Instance M_ret : MRet M := λ A a w, (w, Ret a).
#[global] Instance M_bind : MBind M := λ A B k m w,
  match m w with
  | (w', Ret a) => k a w'
  | (w', Thr e) => (w', Thr e)
  | (w', Hang) => (w', Hang)
  end.

Definition throw {A} (e : E) : M A := λ w, (w, Thr e).

(** An [await] of a promise that stays pending. *)
Definition hang {A} : M A := λ w, (w, Hang).

(** [try { body } catch (error) { handler }]. *)
Definition try_catchM {A} (body : M A) (handler : E → M A) : M A := λ w,
  match body w with
  | (w', Ret a) => (w', Ret a)
  | (w', Thr e) => handler e w'
  | (w', Hang) => (w', Hang)
  end.

(** A call of a logging function. *)
Definition call (f : LoggingAdapter) (message : string) (error : option E) : M unit :=
  λ w,
    match f message error w with
    | (w', None) => (w', Ret tt)
    | (w', Some e) => (w', Thr e)
    end.

Definition quoted (s : string) : string :=
  String "034"%char (s +:+ String "034"%char EmptyString).

Context (env : Env) (rt : Runtime E).

(** One iteration of the second loop of [validateWellKnownJSON]. *)
Definition scanStep (log : string → option E → M unit) (callerOrigin : string)
    (q : Quota) (originStr : string) : M Scan :=
  originURL ← try_catchM
    (_ ← log ("Parsing origin from JSON: " +:+ originStr) None;
     match URL_new env originStr with
     | Some u => mret (Some u)
     | None => throw (URL_error rt originStr)
     end)
    (λ error,
       _ ← log ("Skipping invalid origin: " +:+ originStr) (Some error);
       mret None);
  match originURL with
  | None => mret (Continue q)
  | Some originURL =>
      let domain := hostname originURL in
      if negb (JS.truthy domain) then
        _ ← log ("Skipping origin with no hostname: " +:+ originStr) None;
        mret (Continue q)
      else
        label ← try_catchM
          (_ ← log ("Extracting eTLD+1 label from domain: " +:+ domain) None;
           match getLabel env domain with
           | Some l => mret (Some l)
           | None => throw (mkError rt "Skip Domain not valid")
           end)
          (λ error,
             _ ← log ("Failed to extract eTLD+1 label from domain: " +:+ domain)
                     (Some error);
             mret None);
        match label with
        | None => mret (Continue q)
        | Some etldPlus1Label =>
            admitted ←
              (if negb (bool_decide (etldPlus1Label ∈ uniqueLabels q)) then
                 if (CONSTANTS.MAX_LABELS <=? size (uniqueLabels q))%nat then
                   _ ← log ("Hit label limit ("
                            +:+ numberToString (Z.of_nat CONSTANTS.MAX_LABELS)
                            +:+ "), skipping further label checks") None;
                   mret None
                 else
                   _ ← log ("Adding new unique label: " +:+ etldPlus1Label) None;
                   mret (Some {| uniqueLabels := {[etldPlus1Label]} ∪ uniqueLabels q;
                                 hitLimits := hitLimits q |})
               else
                 _ ← log ("Label already processed: " +:+ etldPlus1Label) None;
                 mret (Some q));
            match admitted with
            | None =>
                mret (Continue {| uniqueLabels := uniqueLabels q; hitLimits := true |})
            | Some q' =>
                let originScheme := schemeOf originStr in
                let originHost := hostOf originStr in
                let callerScheme := schemeOf callerOrigin in
                let callerHost := hostOf callerOrigin in
                _ ← log ("Comparing origin "
                         +:+ quoted (originScheme +:+ "://" +:+ originHost)
                         +:+ " with caller "
                         +:+ quoted (callerScheme +:+ "://" +:+ callerHost)) None;
                if String.eqb originScheme callerScheme
                   && String.eqb originHost callerHost
                then
                  _ ← log ("Found matching origin: " +:+ originStr) None;
                  mret Matched
                else mret (Continue q')
            end
        end
  end.

(** The second loop, from the state [q] on. *)
Fixpoint scan (log : string → option E → M unit) (callerOrigin : string)
    (origins : list string) (q : Quota) : M Scan :=
  match origins with
  | [] => mret (Continue q)
  | originStr :: rest =>
      r ← scanStep log callerOrigin q originStr;
      match r with
      | Matched => mret Matched
      | Continue q' => scan log callerOrigin rest q'
      end
  end.

(** [validateWellKnownJSON] with a logger. *)
Definition validateWellKnownJSON (callerOrigin jsonData : string)
    (logger : option LoggingAdapter) : M AuthenticatorStatus :=
  let log := call (createLoggingAdapter (Some (default defaultLogger logger))) in
  parsed ← try_catchM
    (_ ← log "Parsing JSON data for validation" None;
     match JSON_parse env jsonData with
     | Some v => mret (inl v)
     | None => throw (JSON_error rt jsonData)
     end)
    (λ error,
       _ ← log "Failed to parse JSON data" (Some error);
       mret (inr BAD_RELYING_PARTY_ID_JSON_PARSE_ERROR));
  match parsed with
  | inr status => mret status
  | inl webAuthnResp =>
      origins ← match get_origins webAuthnResp with
                | Return o => mret o
                | Throw _ => throw (type_error rt)
                end;
      if negb (truthy origins) || negb (isArray origins) then
        _ ← log "Invalid JSON format: origins property missing or not an array" None;
        mret BAD_RELYING_PARTY_ID_JSON_PARSE_ERROR
      else
        match origins with
        | Some (JArray elems) =>
            match all_strings elems with
            | None =>
                _ ← log "Invalid JSON format: origin is not a string" None;
                mret BAD_RELYING_PARTY_ID_JSON_PARSE_ERROR
            | Some strs =>
                _ ← log ("JSON validation passed, found "
                         +:+ numberToString (Z.of_nat (length elems))
                         +:+ " origins") None;
                callerURL ← try_catchM
                  (_ ← log ("Parsing caller origin: " +:+ callerOrigin) None;
                   match URL_new env callerOrigin with
                   | Some u => mret (Some u)
                   | None => throw (URL_error rt callerOrigin)
                   end)
                  (λ error,
                     _ ← log ("Failed to parse caller origin: " +:+ callerOrigin)
                             (Some error);
                     mret None);
                match callerURL with
                | None => mret BAD_RELYING_PARTY_ID_NO_JSON_MATCH
                | Some _ =>
                    _ ← log ("Checking origins for a match with caller origin: "
                             +:+ callerOrigin) None;
                    r ← scan log callerOrigin strs emptyQuota;
                    match r with
                    | Matched => mret SUCCESS
                    | Continue q =>
                        if hitLimits q then
                          _ ← log "Validation failed: Hit label limit without finding a match"
                                  None;
                          mret BAD_RELYING_PARTY_ID_NO_JSON_MATCH_HIT_LIMITS
                        else
                          _ ← log "Validation failed: No matching origin found" None;
                          mret BAD_RELYING_PARTY_ID_NO_JSON_MATCH
                    end
                end
            end
        | _ => mret BAD_RELYING_PARTY_ID_JSON_PARSE_ERROR
        end
  end.

(** [fetchWellKnownWebAuthn] with a logger. *)
Definition fetchWellKnownWebAuthn (domain : string)
    (logger : option LoggingAdapter) : M string :=
  let log := call (createLoggingAdapter (Some (default defaultLogger logger))) in
  domain ←
    (if negb (JS.startsWith domain "https://") && negb (JS.startsWith domain "http://")
     then
       _ ← log ("Adding https:// prefix to domain: " +:+ domain) None;
       mret ("https://" +:+ domain)
     else mret domain);
  parsedURL ← try_catchM
    (_ ← log ("Parsing domain URL: " +:+ domain) None;
     match URL_new env domain with
     | Some u => mret u
     | None => throw (URL_error rt domain)
     end)
    (λ error,
       _ ← log ("Failed to parse domain URL: " +:+ domain) (Some error);
       throw (mkError rt ("Invalid domain: " +:+ errorToString rt error)));
  let wellKnownURL :=
    protocol parsedURL +:+ "//" +:+ hostname parsedURL
    +:+ CONSTANTS.WELL_KNOWN_PATH in
  _ ← log ("Constructed well-known URL: " +:+ wellKnownURL) None;
  _ ← log ("Fetching well-known endpoint with "
           +:+ numberToString CONSTANTS.TIMEOUT +:+ "ms timeout") None;
  let exchange := fetch env wellKnownURL in
  try_catchM
    (response ← match exchange with
                | Resolved r | Stalled r => mret r
                | Aborted => throw (fetch_aborted rt)
                | Rejected => throw (fetch_rejected rt wellKnownURL)
                end;
     _ ← log ("Received response: HTTP " +:+ numberToString (status response)
              +:+ " " +:+ statusText rt response) None;
     _ ← (if negb (ok response) then
            let errorMsg := "HTTP " +:+ numberToString (status response)
                            +:+ ": " +:+ statusText rt response in
            _ ← log ("Error response: " +:+ errorMsg) None;
            throw (mkError rt errorMsg)
          else mret tt);
     _ ← match content_length response with
         | None => mret tt
         | Some contentLength =>
             if JS.truthy contentLength then
               _ ← log ("Content-Length header: " +:+ contentLength +:+ " bytes") None;
               match JS.parseInt contentLength with
               | Some n =>
                   if n >? CONSTANTS.MAX_BODY_SIZE then
                     let errorMsg :=
                       "Response too large: " +:+ contentLength +:+ " bytes" in
                     _ ← log errorMsg None;
                     throw (mkError rt errorMsg)
                   else mret tt
               | None => mret tt
               end
             else mret tt
         end;
     body ← match exchange with
            | Stalled _ => hang
            | _ =>
                match text response with
                | Some t => mret t
                | None => throw (text_rejected rt response)
                end
            end;
     let len := Z.of_nat (String.length body) in
     _ ← log ("Received response body: " +:+ numberToString len +:+ " bytes") None;
     if len >? CONSTANTS.MAX_BODY_SIZE then
       let errorMsg := "Response too large: " +:+ numberToString len +:+ " bytes" in
       _ ← log errorMsg None;
       throw (mkError rt errorMsg)
     else mret body)
    (λ error,
       if isAbortError rt error then
         _ ← log ("Request timed out after "
                  +:+ numberToString CONSTANTS.TIMEOUT +:+ "ms") None;
         throw (mkError rt "Request timeout")
       else
         _ ← log "Fetch error" (Some error);
         throw error).

(** [validateOrigin] with a logger. *)
Definition validateOrigin (callerOrigin domain : string)
    (logger : option LoggingAdapter) : M AuthenticatorStatus :=
  let log := call (createLoggingAdapter (Some (default defaultLogger logger))) in
  _ ← log ("Validating if domain " +:+ quoted domain
           +:+ " is a valid subdomain of origin " +:+ quoted callerOrigin) None;
  if isValidDomainForOrigin env callerOrigin domain then
    _ ← log ("Domain " +:+ quoted domain +:+ " is a valid subdomain of origin "
             +:+ quoted callerOrigin) None;
    mret SUCCESS
  else
    _ ← log ("Domain " +:+ quoted domain +:+ " is not a valid subdomain of origin "
             +:+ quoted callerOrigin +:+ ", trying .well-known/webauthn endpoint")
            None;
    try_catchM
      (jsonData ← fetchWellKnownWebAuthn domain logger;
       _ ← log ("Successfully fetched .well-known/webauthn data for domain "
                +:+ quoted domain +:+ ", validating JSON") None;
       validateWellKnownJSON callerOrigin jsonData logger)
      (λ error,
         _ ← log ("Failed to fetch or parse .well-known/webauthn for domain "
                  +:+ quoted domain) (Some error);
         mret BAD_RELYING_PARTY_ID_NO_JSON_MATCH).

(** The result the entry points build from a status, after logging it. *)
Definition reportLogged (log : string → option E → M unit)
    (status : AuthenticatorStatus) : M Index.Result :=
  let isValid := ordinal status =? ordinal SUCCESS in
  let message := authenticatorStatusToString (ordinal status) in
  _ ← log ("Validation result: " +:+ (if isValid then "Valid" else "Invalid")
           +:+ ", status: " +:+ message) None;
  mret {| Index.isValid := isValid; Index.status := status;
          Index.message := message |}.

(** [validatePasskeyOrigin] with a logger. *)
Definition validatePasskeyOrigin (rpId origin : string)
    (logger : option LoggingAdapter) : M Index.Result :=
  let log := call (createLoggingAdapter (Some (default defaultLogger logger))) in
  try_catchM
    (_ ← log ("Validating origin " +:+ quoted origin +:+ " against rpId "
              +:+ quoted rpId) None;
     status ← validateOrigin origin rpId logger;
     reportLogged log status)
    (λ error,
       _ ← log "Validation error" (Some error);
       mret {| Index.isValid := false;
               Index.status := BAD_RELYING_PARTY_ID_NO_JSON_MATCH;
               Index.message := "Validation failed: " +:+ errorMessage rt error |}).

(** [validatePasskeyOriginFromJSON] with a logger. *)
Definition validatePasskeyOriginFromJSON (origin wellKnownJson : string)
    (logger : option LoggingAdapter) : M Index.Result :=
  let log := call (createLoggingAdapter (Some (default defaultLogger logger))) in
  try_catchM
    (_ ← log ("Validating origin " +:+ quoted origin
              +:+ " against well-known JSON data") None;
     status ← validateWellKnownJSON origin wellKnownJson logger;
     reportLogged log status)
    (λ error,
       _ ← log "Validation error" (Some error);
       mret {| Index.isValid := false;
               Index.status := BAD_RELYING_PARTY_ID_JSON_PARSE_ERROR;
               Index.message := "Validation failed: " +:+ errorMessage rt error |}).

(** *** The vocabulary of the properties of logging *)

(** The logging function that an entry point calls:
    [createLoggingAdapter(logger || defaultLogger)]. *)
Definition adapterOf (logger : option LoggingAdapter) : LoggingAdapter :=
  createLoggingAdapter (Some (default defaultLogger logger)).

(** From a world that satisfies [P], the computation [m] ends in a world
    that satisfies [P], with an outcome that satisfies [R]. *)
Definition yields {A} (P : World → Prop) (m : M A) (R : Outcome E A → Prop) : Prop :=
  ∀ w, P w → P (m w).1 ∧ R (m w).2.

(** A logging function keeps [P]. *)
Definition keeps (P : World → Prop) (f : LoggingAdapter) : Prop :=
  ∀ message error w, P w → P (f message error w).1.

(** The outcome [o] of the logging version agrees with the result [r] of
    the plain one: the same value, or a throw for a throw, or neither of
    them settles. *)
Definition agrees {A} (r : Promise A) (o : Outcome E A) : Prop :=
  match r, o with
  | Settled (Return a), Ret b => a = b
  | Settled (Throw _), Thr _ => True
  | Pending, Hang => True
  | _, _ => False
  end.

End Logged.
End Logged.

(** ** An executable environment

    [Fixture] stands in for the four collaborators so that the validator can
    be run.  Its readers follow the algorithms of the real ones on the inputs
    they accept and refuse what they do not cover, as said at each. *)

Module Fixture.

Definition code (c : ascii) : nat := Ascii.nat_of_ascii c.
Definition isDigit (c : ascii) : bool := ((48 <=? code c) && (code c <=? 57))%nat.
Definition isUpper (c : ascii) : bool := ((65 <=? code c) && (code c <=? 90))%nat.
Definition isLower (c : ascii) : bool := ((97 <=? code c) && (code c <=? 122))%nat.
Definition isAlpha (c : ascii) : bool := isUpper c || isLower c.
Definition lower (c : ascii) : ascii :=
  if isUpper c then Ascii.ascii_of_nat (code c + 32) else c.
Definition isChar (c : ascii) (s : string) : bool := String.eqb (String c EmptyString) s.

Fixpoint map_string (f : ascii → ascii) (s : string) : string :=
  match s with
  | EmptyString => EmptyString
  | String c s' => String (f c) (map_string f s')
  end.

Fixpoint all_string (p : ascii → bool) (s : string) : bool :=
  match s with
  | EmptyString => true
  | String c s' => p c && all_string p s'
  end.

(** The units of [s] before the first one that satisfies [stop], and the
    rest from that unit on. *)
Fixpoint break (stop : ascii → bool) (s : string) : string * string :=
  match s with
  | EmptyString => (EmptyString, EmptyString)
  | String c s' =>
      if stop c then (EmptyString, s)
      else let '(a, b) := break stop s' in (String c a, b)
  end.

Fixpoint dropWhile (p : ascii → bool) (s : string) : string :=
  match s with
  | String c s' => if p c then dropWhile p s' else s
  | EmptyString => s
  end.

Definition toLowerCase : string → string := map_string lower.

(** *** [JSON.parse] *)

Definition dquote : ascii := "034"%char.
Definition quote (s : string) : string :=
  String dquote (s +:+ String dquote EmptyString).

Definition isJSONSpace (c : ascii) : bool :=
  ((code c =? 32) || (code c =? 9) || (code c =? 10) || (code c =? 13))%nat.
Definition ws : string → string := dropWhile isJSONSpace.

(** The bytes of a [\uXXXX] escape, in the manner of UTF-8. *)
Definition unitBytes (n : Z) : string :=
  let byte z := Ascii.ascii_of_nat (Z.to_nat z) in
  if n <? 128 then String (byte n) EmptyString
  else if n <? 2048 then
    String (byte (192 + n / 64)) (String (byte (128 + n mod 64)) EmptyString)
  else
    String (byte (224 + n / 4096))
      (String (byte (128 + (n / 64) mod 64))
         (String (byte (128 + n mod 64)) EmptyString)).

Definition hex4 (a b c d : ascii) : option Z :=
  match JS.digit 16 a, JS.digit 16 b, JS.digit 16 c, JS.digit 16 d with
  | Some w, Some x, Some y, Some z => Some (((w * 16 + x) * 16 + y) * 16 + z)
  | _, _, _, _ => None
  end.

(** A string literal, read from just after its opening quote. *)
Fixpoint readString (s acc : string) : option (string * string) :=
  match s with
  | EmptyString => None
  | String c s1 =>
      if Ascii.eqb c dquote then Some (acc, s1)
      else if isChar c "\" then
        match s1 with
        | String e s2 =>
            let simple (b : ascii) := readString s2 (acc +:+ String b EmptyString) in
            if Ascii.eqb e dquote then simple dquote
            else if isChar e "\" then simple "\"%char
            else if isChar e "/" then simple "/"%char
            else if isChar e "b" then simple "008"%char
            else if isChar e "f" then simple "012"%char
            else if isChar e "n" then simple "010"%char
            else if isChar e "r" then simple "013"%char
            else if isChar e "t" then simple "009"%char
            else if isChar e "u" then
              match s2 with
              | String h1 (String h2 (String h3 (String h4 s3))) =>
                  match hex4 h1 h2 h3 h4 with
                  | Some n => readString s3 (acc +:+ unitBytes n)
                  | None => None
                  end
              | _ => None
              end
            else None
        | EmptyString => None
        end
      else if (code c <? 32)%nat then None
      else readString s1 (acc +:+ String c EmptyString)
  end.

(** A run of decimal digits: its value, its length and what follows. *)
Fixpoint readDigits (s : string) (acc : Z) (n : nat) : Z * nat * string :=
  match s with
  | String c s' =>
      match JS.digit 10 c with
      | Some d => readDigits s' (acc * 10 + d) (S n)
      | None => (acc, n, s)
      end
  | EmptyString => (acc, n, s)
  end.

(** A number literal: [-? int frac? exp?]. *)
Definition readNumber (s : string) : option (JSON * string) :=
  let '(sign, s) :=
    match s with
    | String "-" s' => (-1, s')
    | _ => (1, s)
    end in
  let int :=
    match s with
    | String "0" s' => Some (0, s')
    | _ => let '(v, n, s') := readDigits s 0 0 in
           if (n =? 0)%nat then None else Some (v, s')
    end in
  match int with
  | None => None
  | Some (i, s) =>
      let frac :=
        match s with
        | String "." s' =>
            let '(v, n, s'') := readDigits s' 0 0 in
            if (n =? 0)%nat then None else Some (i * 10 ^ Z.of_nat n + v, n, s'')
        | _ => Some (i, 0%nat, s)
        end in
      match frac with
      | None => None
      | Some (m, n, s) =>
          let exp :=
            match s with
            | String "e" s' | String "E" s' =>
                let '(sg, s') :=
                  match s' with
                  | String "-" t => (-1, t)
                  | String "+" t => (1, t)
                  | _ => (1, s')
                  end in
                let '(v, k, s'') := readDigits s' 0 0 in
                if (k =? 0)%nat then None else Some (sg * v, s'')
            | _ => Some (0, s)
            end in
          match exp with
          | None => None
          | Some (e, s) => Some (JNumber (sign * m) (e - Z.of_nat n), s)
          end
      end
  end.

(** A value, the rest of an array and the rest of an object. *)
Fixpoint readValue (fuel : nat) (s : string) : option (JSON * string) :=
  match fuel with
  | O => None
  | S fuel =>
      match ws s with
      | String c s1 =>
          if isChar c "{" then
            match ws s1 with
            | String "}" s2 => Some (JObject [], s2)
            | _ => readMembers fuel s1 []
            end
          else if isChar c "[" then
            match ws s1 with
            | String "]" s2 => Some (JArray [], s2)
            | _ => readElements fuel s1 []
            end
          else if Ascii.eqb c dquote then
            match readString s1 EmptyString with
            | Some (str, s2) => Some (JString str, s2)
            | None => None
            end
          else if String.prefix "null" (ws s) then
            Some (JNull, String.substring 4 (String.length s) (ws s))
          else if String.prefix "true" (ws s) then
            Some (JBool true, String.substring 4 (String.length s) (ws s))
          else if String.prefix "false" (ws s) then
            Some (JBool false, String.substring 5 (String.length s) (ws s))
          else readNumber (ws s)
      | EmptyString => None
      end
  end
with readElements (fuel : nat) (s : string) (acc : list JSON)
  : option (JSON * string) :=
  match fuel with
  | O => None
  | S fuel =>
      match readValue fuel s with
      | None => None
      | Some (v, s1) =>
          match ws s1 with
          | String "," s2 => readElements fuel s2 (acc ++ [v])
          | String "]" s2 => Some (JArray (acc ++ [v]), s2)
          | _ => None
          end
      end
  end
with readMembers (fuel : nat) (s : string) (acc : list (string * JSON))
  : option (JSON * string) :=
  match fuel with
  | O => None
  | S fuel =>
      match ws s with
      | String c s1 =>
          if Ascii.eqb c dquote then
            match readString s1 EmptyString with
            | None => None
            | Some (key, s2) =>
                match ws s2 with
                | String ":" s3 =>
                    match readValue fuel s3 with
                    | None => None
                    | Some (v, s4) =>
                        match ws s4 with
                        | String "," s5 => readMembers fuel s5 (acc ++ [(key, v)])
                        | String "}" s5 => Some (JObject (acc ++ [(key, v)]), s5)
                        | _ => None
                        end
                    end
                | _ => None
                end
            end
          else None
      | EmptyString => None
      end
  end.

(** [JSON.parse]: one value, with nothing but white space around it. *)
Definition JSON_parse (s : string) : option JSON :=
  match readValue (2 * String.length s + 2) s with
  | Some (v, rest) =>
      match ws rest with
      | EmptyString => Some v
      | _ => None
      end
  | None => None
  end.

(** *** [new URL(input)]

    The reader covers absolute URLs written in printable ASCII whose host is
    a domain name of letters, digits, hyphens and dots that does not end in
    a number, with an optional decimal port and no credentials.  On those it
    follows the WHATWG state machine: the scheme runs to the first colon and
    is lowercased; after a special scheme every slash and backslash before
    the authority is skipped; the authority ends at the first slash,
    question mark or hash (or backslash, for a special scheme); the host of
    a special scheme is lowercased and must not be empty; the port is at
    most 65535.  Anything else is refused ([file:], IPv4 and IPv6 hosts,
    percent escapes, non-ASCII hosts, credentials, white space). *)

Definition special (scheme : string) : bool :=
  bool_decide (scheme ∈ ["http"; "https"; "ws"; "wss"; "ftp"]).

Definition isSlash (c : ascii) : bool := isChar c "/" || isChar c "\".
Definition isPrintable (c : ascii) : bool := ((32 <? code c) && (code c <? 127))%nat.
Definition isSchemeChar (c : ascii) : bool :=
  isAlpha c || isDigit c || isChar c "+" || isChar c "-" || isChar c ".".
Definition isHostChar (c : ascii) : bool :=
  isAlpha c || isDigit c || isChar c "-" || isChar c ".".

(** The last label of a host starts with a digit: the URL standard would
    read such a host as an IPv4 address. *)
Definition endsInNumber (host : string) : bool :=
  match reverse (JS.split host ".") with
  | EmptyString :: String c _ :: _ | String c _ :: _ => isDigit c
  | _ => false
  end.

Definition readPort (port : string) : bool :=
  all_string isDigit port
  && match JS.digits 10 port None with
     | Some n => n <=? 65535
     | None => true
     end.

Definition readAuthority (isSpecial : bool) (authority : string) : option string :=
  let '(host, port) := break (λ c, isChar c ":") authority in
  let portOk :=
    match port with
    | String _ digits => readPort digits
    | EmptyString => true
    end in
  if negb portOk || negb (all_string isHostChar host) || endsInNumber host then None
  else if isSpecial then
    if String.eqb host EmptyString then None else Some (toLowerCase host)
  else
    match host, port with
    | EmptyString, String _ _ => None
    | _, _ => Some host
    end.

Definition URL_new (input : string) : option URL :=
  if negb (all_string isPrintable input) then None
  else
    let '(scheme, rest) := break (λ c, isChar c ":") input in
    match scheme, rest with
    | String c _, String _ rest =>
        if negb (isAlpha c && all_string isSchemeChar scheme) then None
        else
          let scheme := toLowerCase scheme in
          let url host := {| protocol := scheme +:+ ":"; hostname := host |} in
          if String.eqb scheme "file" then None
          else if special scheme then
            let '(authority, _) :=
              break (λ c, isSlash c || isChar c "?" || isChar c "#")
                    (dropWhile isSlash rest) in
            url <$> readAuthority true authority
          else if String.prefix "//" rest then
            let '(authority, _) :=
              break (λ c, isChar c "/" || isChar c "?" || isChar c "#")
                    (String.substring 2 (String.length rest) rest) in
            url <$> readAuthority false authority
          else Some (url EmptyString)
    | _, _ => None
    end.

(** *** [psl.parse]

    The algorithm of the package for ASCII input, over a suffix table of
    ordinary rules (no wildcard or exception rule). *)

Definition rules : list string :=
  ["com"; "org"; "net"; "de"; "in"; "uk"; "co.uk"].

Definition validLabel (label : string) : bool :=
  match label, reverse (String.list_ascii_of_string label) with
  | String first _, last :: _ =>
      (String.length label <=? 63)%nat
      && negb (isChar first "-") && negb (isChar last "-")
      && all_string (λ c, isLower c || isDigit c || isChar c "-") label
  | _, _ => false
  end.

(** [internals.validate] finds no error. *)
Definition validate (input : string) : bool :=
  (1 <=? String.length input)%nat && (String.length input <=? 255)%nat
  && forallb validLabel (JS.split input ".").

(** [internals.findRule]: the last rule of the table that is the domain or
    a dot-suffix of it. *)
Definition findRule (domain : string) : option string :=
  foldl (λ memo rule,
           if negb (JS.endsWith domain ("." +:+ rule)) && negb (String.eqb domain rule)
           then memo else Some rule)
        None rules.

Definition psl_parse (input : string) : ParsedDomain :=
  let domain := toLowerCase input in
  let domain :=
    if JS.endsWith domain "."
    then String.substring 0 (String.length domain - 1) domain else domain in
  if negb (validate domain) then ErrorResult
  else
    let domainParts := JS.split domain "." in
    if bool_decide (last domainParts = Some "local") then Parsed None
    else
      match findRule domain with
      | None =>
          match reverse domainParts with
          | tld :: sld :: _ => Parsed (Some (sld +:+ "." +:+ tld))
          | _ => Parsed None
          end
      | Some suffix =>
          let tldParts := JS.split suffix "." in
          let privateParts :=
            take (length domainParts - length tldParts) domainParts in
          match last privateParts with
          | None => Parsed None
          | Some sld => Parsed (Some (sld +:+ "." +:+ suffix))
          end
      end.

(** *** [fetch]

    A small network: [bar.com] serves a document that lists
    [https://foo.com], [null.example.com] serves the document [null],
    [gone.example.com] answers 404, [big.example.com] announces a body over
    the size limit, [slow.example.com] is cut by the timer, and every other
    request is rejected. *)

(** The document [{"origins":[...]}] that lists [origins]. *)
Definition wellKnown (origins : list string) : string :=
  "{" +:+ quote "origins" +:+ ":[" +:+ String.concat "," (quote <$> origins) +:+ "]}".

Definition fetch (url : string) : FetchOutcome :=
  if String.eqb url "https://bar.com/.well-known/webauthn" then
    Resolved {| status := 200; content_length := Some "100";
                text := Some (wellKnown ["https://foo.com"]) |}
  else if String.eqb url "https://null.example.com/.well-known/webauthn" then
    Resolved {| status := 200; content_length := None; text := Some "null" |}
  else if String.eqb url "https://gone.example.com/.well-known/webauthn" then
    Resolved {| status := 404; content_length := None; text := Some "Not Found" |}
  else if String.eqb url "https://big.example.com/.well-known/webauthn" then
    Resolved {| status := 200; content_length := Some "300000"; text := None |}
  else if String.eqb url "https://slow.example.com/.well-known/webauthn" then Aborted
  else if String.eqb url "https://stall.example.com/.well-known/webauthn" then
    Stalled {| status := 200; content_length := Some "100"; text := None |}
  else Rejected.

Definition env : Env := Build_Env URL_new psl_parse JSON_parse fetch.

End Fixture.

(** ** An executable run time and two loggers

    Errors are their messages.  [collect] keeps the messages it is given in
    its own store and leaves the console alone; [failing] throws on every
    call. *)

Module LoggingFixture.

Definition rt : Logged.Runtime string :=
  {| Logged.mkError := λ message, message;
     Logged.errorToString := λ error, "Error: " +:+ error;
     Logged.errorMessage := λ error, error;
     Logged.isAbortError := λ error, String.eqb error "This operation was aborted";
     Logged.JSON_error := λ _, "Unexpected token in JSON";
     Logged.URL_error := λ _, "Invalid URL";
     Logged.type_error := "Cannot read properties of null (reading 'origins')";
     Logged.fetch_rejected := λ _, "fetch failed";
     Logged.fetch_aborted := "This operation was aborted";
     Logged.text_rejected := λ _, "terminated";
     Logged.statusText := λ r, if status r =? 200 then "OK"
                               else if status r =? 404 then "Not Found"
                               else EmptyString |}.

Definition collect : @Logged.LoggingAdapter string (list string) :=
  λ message error w,
    ({| Logged.console_log := Logged.console_log w;
        Logged.console_error := Logged.console_error w;
        Logged.custom := Logged.custom w ++ [message] |}, None).

Definition failing : @Logged.LoggingAdapter string (list string) :=
  λ message error w, (w, Some "Logger failed").

Definition start : Logged.World string (list string) :=
  {| Logged.console_log := []; Logged.console_error := []; Logged.custom := [] |}.

End LoggingFixture.

(** * Properties *)

(** ** The string primitives do what their JavaScript names say *)

Section Strings.

Lemma append_length (a b : string) :
  String.length (a +:+ b) = (String.length a + String.length b)%nat.
Proof. induction a as [|c a IH]; simpl; congruence. Qed.

Lemma append_assoc (a b c : string) : (a +:+ b) +:+ c = a +:+ b +:+ c.
Proof. induction a as [|x a IH]; simpl; congruence. Qed.

Lemma append_empty_r (a : string) : a +:+ EmptyString = a.
Proof. induction a as [|x a IH]; simpl; congruence. Qed.

(** [prefix p s] holds exactly when [s] starts with [p]. *)
Lemma prefix_spec (p s : string) :
  String.prefix p s = true ↔ ∃ b, s = p +:+ b.
Proof.
  revert s; induction p as [|c p IH]; intros s.
  - destruct s; simpl; split; eauto.
  - destruct s as [|d s]; simpl.
    + split; [done | intros [b Hb]; discriminate].
    + destruct (Ascii.ascii_dec c d) as [->|Hne].
      * rewrite IH. split; intros [b Hb]; exists b; congruence.
      * split; [done | intros [b Hb]; congruence].
Qed.

Lemma find_unfold (s pat : string) :
  JS.find s pat =
    if String.prefix pat s then Some 0%nat
    else match s with
         | EmptyString => None
         | String _ s' => S <$> JS.find s' pat
         end.
Proof. by destruct s. Qed.

(** [find] returns the position of an occurrence... *)
Lemma find_Some (s pat : string) (n : nat) :
  JS.find s pat = Some n →
  ∃ a b, s = a +:+ pat +:+ b ∧ String.length a = n.
Proof.
  revert n; induction s as [|c s IH]; intros n; rewrite find_unfold.
  - destruct (String.prefix pat EmptyString) eqn:Hp; [|done].
    intros [= <-]. apply prefix_spec in Hp as [b Hb].
    by exists EmptyString, b.
  - destruct (String.prefix pat (String c s)) eqn:Hp.
    + intros [= <-]. apply prefix_spec in Hp as [b Hb].
      by exists EmptyString, b.
    + destruct (JS.find s pat) as [m|] eqn:Hf; [|done].
      intros [= <-]. destruct (IH m eq_refl) as (a & b & -> & <-).
      by exists (String c a), b.
Qed.

(** ... the first one ... *)
Lemma find_first (s pat : string) (n : nat) (a b : string) :
  JS.find s pat = Some n → s = a +:+ pat +:+ b → (n ≤ String.length a)%nat.
Proof.
  revert n a; induction s as [|c s IH]; intros n a; rewrite find_unfold.
  - destruct (String.prefix pat EmptyString); [|done].
    intros [= <-] _. lia.
  - destruct (String.prefix pat (String c s)) eqn:Hp.
    + intros [= <-] _. lia.
    + destruct (JS.find s pat) as [m|] eqn:Hf; [|done].
      intros [= <-] Hs. destruct a as [|d a]; simpl in Hs |- *.
      * assert (String.prefix pat (String c s) = true) as Hp'
          by (apply prefix_spec; eauto).
        congruence.
      * injection Hs as -> ->. specialize (IH m a eq_refl eq_refl). lia.
Qed.

(** ... and [None] when there is none. *)
Lemma find_None (s pat : string) :
  JS.find s pat = None ↔ ¬ contains s pat.
Proof.
  split.
  - induction s as [|c s IH]; rewrite find_unfold.
    + destruct (String.prefix pat EmptyString) eqn:Hp; [done|].
      intros _ (a & b & Hs). destruct a; [|done].
      assert (String.prefix pat EmptyString = true) by (apply prefix_spec; eauto).
      congruence.
    + destruct (String.prefix pat (String c s)) eqn:Hp; [done|].
      destruct (JS.find s pat) eqn:Hf; [done|].
      intros _ (a & b & Hs). destruct a as [|d a]; simpl in Hs.
      * assert (String.prefix pat (String c s) = true)
          by (apply prefix_spec; eauto).
        congruence.
      * injection Hs as -> ->. apply IH; [done|]. by exists a, b.
  - intros Hn. destruct (JS.find s pat) as [n|] eqn:Hf; [|done].
    destruct (find_Some _ _ _ Hf) as (a & b & -> & _).
    exfalso. apply Hn. by exists a, b.
Qed.

Lemma indexOf_absent (s pat : string) :
  JS.indexOf s pat = -1 ↔ ¬ contains s pat.
Proof.
  rewrite <- find_None. unfold JS.indexOf.
  destruct (JS.find s pat); split; (done || lia).
Qed.

Lemma substring_prefix (a b : string) :
  String.substring 0 (String.length a) (a +:+ b) = a.
Proof.
  induction a as [|c a IH]; simpl; [by destruct b | by rewrite IH].
Qed.

Lemma substring_suffix (a b : string) :
  String.substring (String.length a) (String.length b) (a +:+ b) = b.
Proof.
  induction a as [|c a IH]; simpl; [|done].
  rewrite <- (append_empty_r b) at 2. apply substring_prefix.
Qed.

Lemma substring_split (s : string) (k m : nat) :
  (k + m = String.length s)%nat →
  s = String.substring 0 k s +:+ String.substring k m s.
Proof.
  revert k m; induction s as [|c s IH]; intros k m Hk; simpl in Hk.
  - assert (k = 0%nat) as -> by lia. by assert (m = 0%nat) as -> by lia.
  - destruct k as [|k].
    + destruct m as [|m]; [done|]. simpl. f_equal.
      rewrite (IH 0%nat m) at 1 by lia. by destruct s.
    + simpl. f_equal. apply IH. lia.
Qed.

(** [endsWith s suf] holds exactly when [s] ends with [suf]. *)
Lemma endsWith_spec (s suf : string) :
  JS.endsWith s suf = true ↔ ∃ p, s = p +:+ suf.
Proof.
  unfold JS.endsWith. rewrite andb_true_iff, Nat.leb_le, String.eqb_eq. split.
  - intros [Hle Hsub].
    exists (String.substring 0 (String.length s - String.length suf) s).
    pose proof (substring_split s (String.length s - String.length suf)
                  (String.length suf)) as Hs.
    rewrite Hsub in Hs. apply Hs. lia.
  - intros [p ->]. rewrite append_length. split; [lia|].
    replace (String.length p + String.length suf - String.length suf)%nat
      with (String.length p) by lia.
    apply substring_suffix.
Qed.

End Strings.

(** ** The label extractor and the suffix authorizer *)

Section Labels.
Context (env : Env).

(** Two strings that agree on a common prefix length split alike. *)
Lemma append_eq_split (a x l y : string) :
  a +:+ x = l +:+ y → (String.length a ≤ String.length l)%nat →
  ∃ t, l = a +:+ t ∧ x = t +:+ y.
Proof.
  revert l; induction a as [|c a IH]; intros l Heq Hlen; simpl in *.
  - by exists l.
  - destruct l as [|d l]; simpl in *; [lia|].
    injection Heq as -> Heq. destruct (IH l Heq) as (t & -> & ->); [lia|].
    by exists t.
Qed.

(** The piece before the first dot is determined by the string. *)
Lemma before_first_dot (a b l rest : string) :
  a +:+ "." +:+ b = l +:+ "." +:+ rest →
  ¬ contains a "." → ¬ contains l "." → a = l.
Proof.
  intros Heq Ha Hl.
  destruct (Nat.le_ge_cases (String.length a) (String.length l)) as [Hle|Hle].
  - destruct (append_eq_split _ _ _ _ Heq Hle) as (t & -> & Ht).
    destruct t as [|c t]; [by rewrite append_empty_r|].
    simpl in Ht. injection Ht as <- _. exfalso. apply Hl. by exists a, t.
  - symmetry in Heq.
    destruct (append_eq_split _ _ _ _ Heq Hle) as (t & -> & Ht).
    destruct t as [|c t]; [by rewrite append_empty_r|].
    simpl in Ht. injection Ht as <- _. exfalso. apply Ha. by exists l, t.
Qed.

(** What [substring(0, indexOf('.'))] cuts out when there is a dot. *)
Lemma label_cut (d : string) :
  contains d "." →
  ∃ rest, JS.indexOf d "." ≠ -1
          ∧ d = JS.substring0 d (JS.indexOf d ".") +:+ "." +:+ rest
          ∧ ¬ contains (JS.substring0 d (JS.indexOf d ".")) ".".
Proof.
  intros Hd. unfold JS.indexOf, JS.substring0.
  destruct (JS.find d ".") as [n|] eqn:Hf.
  - destruct (find_Some _ _ _ Hf) as (a & b & -> & <-).
    rewrite Nat2Z.id, substring_prefix. exists b. split; [lia|]. split; [done|].
    intros (x & y & ->).
    pose proof (find_first _ _ _ x (y +:+ "." +:+ b) Hf) as Hle.
    rewrite !append_assoc in Hle. specialize (Hle eq_refl).
    rewrite append_length in Hle. simpl in Hle. lia.
  - by apply find_None in Hf.
Qed.

(** C8.  [getLabel] fails exactly when the hostname contains no dot or the
    public-suffix resolver yields no registrable domain.  Otherwise it
    returns the whole registrable domain when that contains no dot, and
    else the part of the registrable domain before its first dot. *)
Theorem getLabel_spec (hostname : string) :
  (getLabel env hostname = None
     ↔ ¬ contains hostname "." ∨ registrable env hostname = None)
  ∧ (∀ label,
       getLabel env hostname = Some label
       ↔ contains hostname "."
         ∧ ∃ etldPlus1,
             registrable env hostname = Some etldPlus1
             ∧ ((¬ contains etldPlus1 "." ∧ label = etldPlus1)
                ∨ (∃ rest, etldPlus1 = label +:+ "." +:+ rest
                           ∧ ¬ contains label "."))).
Proof.
  unfold getLabel.
  destruct (JS.indexOf hostname "." =? -1) eqn:Hdot.
  { apply Z.eqb_eq, indexOf_absent in Hdot. split; [tauto|].
    intros label. split; [done | tauto]. }
  apply Z.eqb_neq in Hdot.
  assert (contains hostname ".") as Hhost.
  { destruct (JS.find hostname ".") eqn:Hf.
    - destruct (find_Some _ _ _ Hf) as (a & b & -> & _). by exists a, b.
    - unfold JS.indexOf in Hdot. by rewrite Hf in Hdot. }
  destruct (registrable env hostname) as [d|] eqn:Hreg.
  2:{ split; [tauto|]. intros label. split; [done|].
      by intros (_ & d & ? & _). }
  destruct (JS.indexOf d "." =? -1) eqn:Hd.
  - apply Z.eqb_eq, indexOf_absent in Hd. split.
    { split; [done | intros [?|?]; done]. }
    intros label. split.
    + intros [= <-]. split; [done|]. exists d. eauto.
    + intros (_ & d' & [= <-] & [[_ ->]|(rest & -> & _)]); [done|].
      exfalso. apply Hd. by exists label, rest.
  - apply Z.eqb_neq in Hd.
    assert (contains d ".") as Hcd.
    { destruct (JS.find d ".") eqn:Hf.
      - destruct (find_Some _ _ _ Hf) as (a & b & -> & _). by exists a, b.
      - unfold JS.indexOf in Hd. by rewrite Hf in Hd. }
    destruct (label_cut d Hcd) as (rest & _ & Hcut & Hnodot). split.
    { split; [done | intros [?|?]; done]. }
    intros label. split.
    + intros [= <-]. split; [done|]. exists d. split; [done|]. right. eauto.
    + intros (_ & d' & [= <-] & [[Hno _]|(rest' & Hd' & Hl)]); [done|].
      f_equal. rewrite Hcut in Hd' at 1.
      by apply (before_first_dot _ _ _ _ Hd').
Qed.

(** C1.  [isValidDomainForOrigin] returns [true] exactly when the caller
    origin parses as a URL with hostname [H] and either the domain is [H],
    or [H] ends with a dot followed by the domain, the registrable domains
    of [H] and of the domain both resolve, and the domain is the registrable
    domain of [H] or has the same registrable domain as [H].  On a caller
    origin that does not parse it returns [false]. *)
Theorem isValidDomainForOrigin_spec (callerOrigin domain : string) :
  (isValidDomainForOrigin env callerOrigin domain = true
     ↔ ∃ originURL,
         URL_new env callerOrigin = Some originURL
         ∧ (domain = hostname originURL
            ∨ ((∃ p, hostname originURL = p +:+ "." +:+ domain)
               ∧ ∃ originETLDPlus1 domainETLDPlus1,
                   registrable env (hostname originURL) = Some originETLDPlus1
                   ∧ registrable env domain = Some domainETLDPlus1
                   ∧ (domain = originETLDPlus1
                      ∨ domainETLDPlus1 = originETLDPlus1))))
  ∧ (URL_new env callerOrigin = None
       → isValidDomainForOrigin env callerOrigin domain = false).
Proof.
  unfold isValidDomainForOrigin. split; [|by intros ->].
  destruct (URL_new env callerOrigin) as [originURL|].
  2:{ split; [done | by intros (? & ? & _)]. }
  destruct (String.eqb_spec domain (hostname originURL)) as [Heq|Hne].
  { split; [|done]. intros _. exists originURL. eauto. }
  destruct (JS.endsWith (hostname originURL) ("." +:+ domain)) eqn:Hends.
  2:{ split; [done|]. intros (u & [= <-] & [?|[Hp _]]); [done|].
      apply endsWith_spec in Hp. congruence. }
  cbn [negb].
  apply endsWith_spec in Hends.
  destruct (registrable env (hostname originURL)) as [oe|] eqn:Ho.
  2:{ split; [done|].
      intros (u & [= <-] & [?|(_ & ? & ? & ? & _)]); [done | congruence]. }
  destruct (registrable env domain) as [de|] eqn:Hd.
  2:{ split; [done|].
      intros (u & [= <-] & [?|(_ & ? & ? & _ & ? & _)]); [done | congruence]. }
  destruct (String.eqb_spec domain oe) as [Hdo|Hdo].
  { split; [|done]. intros _. exists originURL. split; [done|]. right.
    split; [done|]. exists oe, de. eauto. }
  rewrite andb_true_r.
  destruct (String.eqb_spec de oe) as [Hde|Hde].
  - split; [|done]. intros _. exists originURL. split; [done|]. right.
    split; [done|]. exists oe, de. eauto.
  - split; [done|].
    intros (u & [= <-] & [?|(_ & oe' & de' & Ho' & Hd' & Hor)]); [done|].
    destruct Hor; congruence.
Qed.

End Labels.

(** ** The well-known document matcher *)

Section Matcher.
Context (env : Env).

Lemma last_member (members : list (string * JSON)) (acc : option JSON) (x : JSON) :
  foldl (λ found m, if String.eqb m.1 "origins" then Some m.2 else found)
        acc members = Some x
  ↔ (∃ before after, members = before ++ ("origins", x) :: after
                     ∧ Forall (λ m, m.1 ≠ "origins") after)
    ∨ (acc = Some x ∧ Forall (λ m, m.1 ≠ "origins") members).
Proof.
  revert acc; induction members as [|[k v] ms IH]; intros acc; simpl.
  - split; [by right|]. intros [(b & a & Hb & _)|[? _]]; [|done].
    by destruct b.
  - rewrite IH. destruct (String.eqb_spec k "origins") as [->|Hk]; split.
    + intros [(b & a & -> & Ha)|[[= ->] Hms]]; left.
      * by exists (("origins", v) :: b), a.
      * by exists [], ms.
    + intros [(b & a & Hb & Ha)|[_ Hall]].
      * destruct b as [|m b]; simplify_eq/=; [by right|].
        left. by exists b, a.
      * by inversion Hall.
    + intros [(b & a & -> & Ha)|[-> Hms]].
      * left. by exists ((k, v) :: b), a.
      * right. split; [done|]. by constructor.
    + intros [(b & a & Hb & Ha)|[-> Hall]].
      * destruct b as [|m b]; simplify_eq/=. left. by exists b, a.
      * right. split; [done|]. by inversion Hall.
Qed.

Lemma get_origins_spec (v x : JSON) :
  get_origins v = Return (Some x) ↔ hasOrigins v x.
Proof.
  unfold hasOrigins. destruct v; simpl;
    try (split; [done | by intros (? & ? & ? & _)]).
  split.
  - intros [= H]. apply last_member in H as [(b & a & -> & Ha)|[? _]]; [|done].
    by exists b, a.
  - intros (b & a & [= ->] & Ha). f_equal. apply last_member. left.
    by exists b, a.
Qed.

(** Every array is truthy, so the first check only asks for an array. *)
Lemma truthy_isArray (v : option JSON) :
  negb (truthy v) || negb (isArray v) = negb (isArray v).
Proof. destruct v as [[]|]; simpl; by rewrite ?orb_true_r. Qed.

Lemma all_strings_fmap (origins : list string) :
  all_strings (JString <$> origins) = Some origins.
Proof. induction origins as [|o os IH]; csimpl; [done | by rewrite IH]. Qed.

Lemma all_strings_Some (elems : list JSON) (strs : list string) :
  all_strings elems = Some strs → elems = JString <$> strs.
Proof.
  revert strs; induction elems as [|e es IH]; intros strs; simpl.
  - by intros [= <-].
  - destruct e; try done. destruct (all_strings es) as [ss|]; [|done].
    intros [= <-]. csimpl. f_equal. by apply IH.
Qed.

(** On a structurally valid document the matcher is the second loop. *)
Lemma validate_structurallyValid (callerOrigin jsonData : string)
    (origins : list string) :
  structurallyValid env jsonData origins →
  validateWellKnownJSON env callerOrigin jsonData =
    Return (match URL_new env callerOrigin with
            | None => BAD_RELYING_PARTY_ID_NO_JSON_MATCH
            | Some _ => outcome (scan env callerOrigin origins emptyQuota)
            end).
Proof.
  intros (v & Hparse & Hv). apply get_origins_spec in Hv.
  unfold validateWellKnownJSON. rewrite Hparse, Hv. simpl.
  rewrite all_strings_fmap. destruct (URL_new env callerOrigin); [|done].
  by destruct (scan env callerOrigin origins emptyQuota) as [|[? []]].
Qed.

(** *** One iteration *)

Lemma emptyQuota_size : size (uniqueLabels emptyQuota) = 0%nat.
Proof. apply size_empty. Qed.

Lemma emptyQuota_fresh (label : string) : label ∉ uniqueLabels emptyQuota.
Proof. apply not_elem_of_empty. Qed.

Lemma scanStep_skip (callerOrigin originStr : string) (q : Quota) :
  labelOf env originStr = None → scanStep env callerOrigin q originStr = Continue q.
Proof. unfold scanStep. by intros ->. Qed.

Lemma scanStep_admitted (callerOrigin originStr label : string) (q : Quota) :
  labelOf env originStr = Some label → label ∈ uniqueLabels q →
  scanStep env callerOrigin q originStr =
    if sameSchemeAndHost originStr callerOrigin then Matched else Continue q.
Proof.
  unfold scanStep. intros -> Hin. by rewrite bool_decide_eq_true_2.
Qed.

Lemma scanStep_room (callerOrigin originStr label : string) (q : Quota) :
  labelOf env originStr = Some label → label ∉ uniqueLabels q →
  (size (uniqueLabels q) < CONSTANTS.MAX_LABELS)%nat →
  scanStep env callerOrigin q originStr =
    if sameSchemeAndHost originStr callerOrigin then Matched
    else Continue {| uniqueLabels := {[label]} ∪ uniqueLabels q;
                     hitLimits := hitLimits q |}.
Proof.
  unfold scanStep. intros -> Hin Hsize. rewrite bool_decide_eq_false_2 by done.
  cbn [negb]. by destruct (Nat.leb_spec CONSTANTS.MAX_LABELS (size (uniqueLabels q))); [lia|].
Qed.

Lemma scanStep_full (callerOrigin originStr label : string) (q : Quota) :
  labelOf env originStr = Some label → label ∉ uniqueLabels q →
  (CONSTANTS.MAX_LABELS ≤ size (uniqueLabels q))%nat →
  scanStep env callerOrigin q originStr =
    Continue {| uniqueLabels := uniqueLabels q; hitLimits := true |}.
Proof.
  unfold scanStep. intros -> Hin Hsize. rewrite bool_decide_eq_false_2 by done.
  cbn [negb]. by destruct (Nat.leb_spec CONSTANTS.MAX_LABELS (size (uniqueLabels q))); [|lia].
Qed.

(** An iteration that leaves with [SUCCESS] compared equal an element that
    has a label. *)
Lemma scanStep_Matched (callerOrigin originStr : string) (q : Quota) :
  scanStep env callerOrigin q originStr = Matched →
  is_Some (labelOf env originStr)
  ∧ sameSchemeAndHost originStr callerOrigin = true.
Proof.
  unfold scanStep. destruct (labelOf env originStr) as [l|]; [|done].
  destruct (sameSchemeAndHost originStr callerOrigin); [by eauto|].
  repeat case_match; done.
Qed.

(** The set of labels only grows, and never beyond the quota. *)
Lemma scanStep_labels (callerOrigin originStr : string) (q q' : Quota) :
  scanStep env callerOrigin q originStr = Continue q' →
  uniqueLabels q ⊆ uniqueLabels q'
  ∧ ((size (uniqueLabels q) ≤ CONSTANTS.MAX_LABELS)%nat →
     (size (uniqueLabels q') ≤ CONSTANTS.MAX_LABELS)%nat)
  ∧ (hitLimits q = true → hitLimits q' = true).
Proof.
  unfold scanStep. destruct (labelOf env originStr) as [l|].
  2:{ by intros [= <-]. }
  destruct (bool_decide (l ∈ uniqueLabels q)) eqn:Hin; cbn [negb].
  { destruct (sameSchemeAndHost _ _); [done|]. by intros [= <-]. }
  apply bool_decide_eq_false in Hin.
  destruct (Nat.leb_spec CONSTANTS.MAX_LABELS (size (uniqueLabels q))).
  { by intros [= <-]. }
  destruct (sameSchemeAndHost _ _); [done|]. intros [= <-]; simpl.
  split; [set_solver|]. split; [|done]. intros _.
  rewrite size_union by set_solver. rewrite size_singleton. lia.
Qed.

(** *** The loop *)

Lemma scan_app (callerOrigin : string) (pre post : list string) (q : Quota) :
  scan env callerOrigin (pre ++ post) q =
    match scan env callerOrigin pre q with
    | Matched => Matched
    | Continue q' => scan env callerOrigin post q'
    end.
Proof.
  revert q; induction pre as [|x pre IH]; intros q; simpl; [done|].
  by destruct (scanStep env callerOrigin q x).
Qed.

Lemma scan_labels (callerOrigin : string) (origins : list string) (q q' : Quota) :
  scan env callerOrigin origins q = Continue q' →
  uniqueLabels q ⊆ uniqueLabels q'
  ∧ ((size (uniqueLabels q) ≤ CONSTANTS.MAX_LABELS)%nat →
     (size (uniqueLabels q') ≤ CONSTANTS.MAX_LABELS)%nat)
  ∧ (hitLimits q = true → hitLimits q' = true).
Proof.
  revert q; induction origins as [|x xs IH]; intros q; simpl.
  - by intros [= <-].
  - destruct (scanStep env callerOrigin q x) as [|q1] eqn:Hstep; [done|].
    intros Hscan. apply scanStep_labels in Hstep as (? & ? & ?).
    apply IH in Hscan as (? & ? & ?). split; [by etrans | auto].
Qed.

(** A loop that leaves with [SUCCESS] found an element that has a label and
    compares equal to the caller. *)
Lemma scan_Matched (callerOrigin : string) (origins : list string) (q : Quota) :
  scan env callerOrigin origins q = Matched →
  ∃ originStr, originStr ∈ origins
               ∧ is_Some (labelOf env originStr)
               ∧ sameSchemeAndHost originStr callerOrigin = true.
Proof.
  revert q; induction origins as [|x xs IH]; intros q; simpl; [done|].
  destruct (scanStep env callerOrigin q x) as [|q1] eqn:Hstep.
  - intros _. apply scanStep_Matched in Hstep as [? ?].
    exists x. split; [by left | done].
  - intros (y & ? & ?)%IH. exists y. split; [by right | done].
Qed.

(** Once the quota is full and flagged, elements that do not match under an
    admitted label leave the state as it is. *)
Lemma scan_exhausted (callerOrigin : string) (origins : list string) (q : Quota) :
  (CONSTANTS.MAX_LABELS ≤ size (uniqueLabels q))%nat → hitLimits q = true →
  (∀ x label, x ∈ origins → labelOf env x = Some label →
              label ∈ uniqueLabels q → sameSchemeAndHost x callerOrigin = false) →
  scan env callerOrigin origins q = Continue q.
Proof.
  intros Hfull Hhit. induction origins as [|x xs IH]; intros Hno; simpl; [done|].
  assert (scanStep env callerOrigin q x = Continue q) as ->.
  { destruct (labelOf env x) as [l|] eqn:Hl; [|by apply scanStep_skip].
    destruct (decide (l ∈ uniqueLabels q)) as [Hin|Hin].
    - rewrite (scanStep_admitted _ _ l) by done.
      rewrite (Hno x l); [done | by left | done | done].
    - rewrite (scanStep_full _ _ l) by done. destruct q; simpl in *. by subst. }
  apply IH. intros y l ?. apply Hno. by right.
Qed.

End Matcher.

(** ** What the matcher guarantees *)

Section MatcherProperties.
Context (env : Env).

(** C2.  The matcher admits at most 5 distinct labels.  An element that
    compares equal to the caller and brings a new label while fewer than 5
    are admitted (the 5th label at the latest) returns [SUCCESS].  When 5
    labels are admitted, an element that compares equal to the caller but
    brings a 6th label is neither matched nor admitted, and if no later
    element matches under an admitted label the result is
    [NO_MATCH_HIT_LIMITS].  The loop runs only when the caller origin
    parses. *)
Theorem label_quota (callerOrigin jsonData : string) (origins : list string) :
  structurallyValid env jsonData origins →
  is_Some (URL_new env callerOrigin) →
  (∀ pre post q,
     origins = pre ++ post →
     scan env callerOrigin pre emptyQuota = Continue q →
     (size (uniqueLabels q) ≤ 5)%nat)
  ∧ (∀ pre originStr post q label,
       origins = pre ++ originStr :: post →
       scan env callerOrigin pre emptyQuota = Continue q →
       labelOf env originStr = Some label →
       label ∉ uniqueLabels q →
       sameSchemeAndHost originStr callerOrigin = true →
       ((size (uniqueLabels q) < 5)%nat →
        validateWellKnownJSON env callerOrigin jsonData = Return SUCCESS)
       ∧ (size (uniqueLabels q) = 5%nat →
          scanStep env callerOrigin q originStr =
            Continue {| uniqueLabels := uniqueLabels q; hitLimits := true |}
          ∧ ((∀ x l, x ∈ post → labelOf env x = Some l → l ∈ uniqueLabels q →
                     sameSchemeAndHost x callerOrigin = false) →
             validateWellKnownJSON env callerOrigin jsonData =
               Return BAD_RELYING_PARTY_ID_NO_JSON_MATCH_HIT_LIMITS))).
Proof.
  intros Hvalid [u Hu].
  rewrite (validate_structurallyValid _ _ _ _ Hvalid), Hu. split.
  - intros pre post q _ Hscan. apply scan_labels in Hscan as (_ & Hsize & _).
    apply Hsize. rewrite emptyQuota_size. unfold CONSTANTS.MAX_LABELS. lia.
  - intros pre originStr post q label -> Hscan Hlabel Hnew Hsame. split.
    + intros Hlt. rewrite scan_app, Hscan. simpl.
      by rewrite (scanStep_room _ _ _ label), Hsame.
    + intros Hfull.
      assert (scanStep env callerOrigin q originStr =
                Continue {| uniqueLabels := uniqueLabels q; hitLimits := true |})
        as Hstep.
      { apply (scanStep_full _ _ _ label); [done | done |].
        unfold CONSTANTS.MAX_LABELS. lia. }
      split; [done|]. intros Hno.
      rewrite scan_app, Hscan. simpl. rewrite Hstep.
      rewrite scan_exhausted; [done | | done | done].
      simpl. unfold CONSTANTS.MAX_LABELS. lia.
Qed.

(** C5.  Reaching the quota does not end the loop: the element that brings
    a label over the quota only sets the flag, and the loop goes on.  A
    later element whose label is already admitted and that compares equal
    to the caller still returns [SUCCESS]. *)
Theorem match_after_exhaustion (callerOrigin : string) :
  (∀ q originStr label,
     labelOf env originStr = Some label →
     label ∉ uniqueLabels q →
     (5 ≤ size (uniqueLabels q))%nat →
     scanStep env callerOrigin q originStr =
       Continue {| uniqueLabels := uniqueLabels q; hitLimits := true |})
  ∧ (∀ jsonData pre originStr post q label,
       structurallyValid env jsonData (pre ++ originStr :: post) →
       is_Some (URL_new env callerOrigin) →
       scan env callerOrigin pre emptyQuota = Continue q →
       hitLimits q = true →
       labelOf env originStr = Some label →
       label ∈ uniqueLabels q →
       sameSchemeAndHost originStr callerOrigin = true →
       validateWellKnownJSON env callerOrigin jsonData = Return SUCCESS).
Proof.
  split.
  - intros q originStr label Hlabel Hnew Hfull.
    by apply (scanStep_full _ _ _ label).
  - intros jsonData pre originStr post q label Hvalid [u Hu] Hscan _
      Hlabel Hin Hsame.
    rewrite (validate_structurallyValid _ _ _ _ Hvalid), Hu.
    rewrite scan_app, Hscan. simpl.
    by rewrite (scanStep_admitted _ _ _ label), Hsame.
Qed.

(** C9.  An element has no label exactly when it does not parse as a URL,
    or its host is empty, or [getLabel] fails on its host.  Such an element
    leaves the state of the loop as it is, so the document gives the same
    result with and without it; for instance the caller
    [https://foo.com] is matched by the document that lists [invalid-url]
    and then [https://foo.com]. *)
Theorem unlabelled_elements_skipped :
  (∀ originStr,
     labelOf env originStr = None
     ↔ URL_new env originStr = None
       ∨ ∃ originURL, URL_new env originStr = Some originURL
                      ∧ (hostname originURL = EmptyString
                         ∨ getLabel env (hostname originURL) = None))
  ∧ (∀ callerOrigin q originStr,
       labelOf env originStr = None →
       scanStep env callerOrigin q originStr = Continue q)
  ∧ (∀ callerOrigin jsonData jsonData' pre originStr post,
       structurallyValid env jsonData (pre ++ originStr :: post) →
       structurallyValid env jsonData' (pre ++ post) →
       labelOf env originStr = None →
       validateWellKnownJSON env callerOrigin jsonData =
         validateWellKnownJSON env callerOrigin jsonData')
  ∧ (∀ jsonData,
       structurallyValid env jsonData ["invalid-url"; "https://foo.com"] →
       is_Some (labelOf env "https://foo.com") →
       validateWellKnownJSON env "https://foo.com" jsonData = Return SUCCESS).
Proof.
  split; [|split; [|split]].
  - intros originStr. unfold labelOf.
    destruct (URL_new env originStr) as [u|]; [|by split; eauto].
    unfold JS.truthy. rewrite negb_involutive.
    destruct (String.eqb_spec (hostname u) EmptyString) as [Hh|Hh].
    + split; [|done]. intros _. right. exists u. eauto.
    + split.
      * intros Hl. right. exists u. eauto.
      * by intros [?|(? & [= <-] & [?|?])].
  - intros callerOrigin q originStr. apply scanStep_skip.
  - intros callerOrigin jsonData jsonData' pre originStr post Hv Hv' Hnone.
    rewrite (validate_structurallyValid _ _ _ _ Hv).
    rewrite (validate_structurallyValid _ _ _ _ Hv').
    destruct (URL_new env callerOrigin); [|done].
    rewrite !scan_app.
    destruct (scan env callerOrigin pre emptyQuota) as [|q]; [done|].
    simpl. by rewrite scanStep_skip.
  - intros jsonData Hvalid [label Hlabel].
    rewrite (validate_structurallyValid _ _ _ _ Hvalid).
    assert (is_Some (URL_new env "https://foo.com")) as [u ->].
    { unfold labelOf in Hlabel. by destruct (URL_new env "https://foo.com"). }
    assert (∃ q, scanStep env "https://foo.com" emptyQuota "invalid-url" = Continue q
                 ∧ (size (uniqueLabels q) ≤ 1)%nat) as (q & Hq & Hsize).
    { destruct (labelOf env "invalid-url") as [l|] eqn:Hl.
      - eexists. split.
        + rewrite (scanStep_room _ _ _ l);
            [done | done | apply emptyQuota_fresh |].
          rewrite emptyQuota_size. unfold CONSTANTS.MAX_LABELS. lia.
        + cbn [uniqueLabels]. rewrite size_union.
          * rewrite size_singleton, emptyQuota_size. lia.
          * intros x _. apply emptyQuota_fresh.
      - exists emptyQuota. split; [by apply scanStep_skip|].
        rewrite emptyQuota_size. lia. }
    simpl. rewrite Hq.
    destruct (decide (label ∈ uniqueLabels q)) as [Hin|Hin].
    + by rewrite (scanStep_admitted _ _ _ label).
    + rewrite (scanStep_room _ _ _ label); [done | done | done |].
      unfold CONSTANTS.MAX_LABELS. lia.
Qed.

(** C4.  An element is compared with the caller by the raw scheme and the
    raw host (with its port), unit for unit, so case matters.
    [HTTPS://Foo.com] does not compare equal to [https://foo.com]: a
    document matched by that caller owes it to another element, and the
    document that lists only [HTTPS://Foo.com] is not matched.  For the
    caller [https://foo.com:8080] the document that lists
    [https://foo.com:9090] gives [NO_MATCH]. *)
Theorem case_sensitive_comparison :
  (∀ originStr callerOrigin,
     sameSchemeAndHost originStr callerOrigin = true
     ↔ schemeOf originStr = schemeOf callerOrigin
       ∧ hostOf originStr = hostOf callerOrigin)
  ∧ (schemeOf "HTTPS://Foo.com" = "HTTPS" ∧ hostOf "HTTPS://Foo.com" = "Foo.com"
     ∧ schemeOf "https://foo.com" = "https" ∧ hostOf "https://foo.com" = "foo.com"
     ∧ hostOf "https://foo.com:8080" = "foo.com:8080"
     ∧ hostOf "https://foo.com:9090" = "foo.com:9090")
  ∧ (∀ jsonData origins,
       structurallyValid env jsonData origins →
       validateWellKnownJSON env "https://foo.com" jsonData = Return SUCCESS →
       ∃ originStr, originStr ∈ origins ∧ originStr ≠ "HTTPS://Foo.com"
                    ∧ sameSchemeAndHost originStr "https://foo.com" = true)
  ∧ (∀ jsonData,
       structurallyValid env jsonData ["HTTPS://Foo.com"] →
       validateWellKnownJSON env "https://foo.com" jsonData
         = Return BAD_RELYING_PARTY_ID_NO_JSON_MATCH)
  ∧ (∀ jsonData,
       structurallyValid env jsonData ["https://foo.com:9090"] →
       validateWellKnownJSON env "https://foo.com:8080" jsonData
         = Return BAD_RELYING_PARTY_ID_NO_JSON_MATCH).
Proof.
  assert (∀ callerOrigin originStr jsonData,
            sameSchemeAndHost originStr callerOrigin = false →
            structurallyValid env jsonData [originStr] →
            validateWellKnownJSON env callerOrigin jsonData
              = Return BAD_RELYING_PARTY_ID_NO_JSON_MATCH) as Hone.
  { intros callerOrigin originStr jsonData Hsame Hvalid.
    rewrite (validate_structurallyValid _ _ _ _ Hvalid).
    destruct (URL_new env callerOrigin); [|done]. simpl.
    destruct (labelOf env originStr) as [l|] eqn:Hl.
    - rewrite (scanStep_room _ _ _ l), Hsame;
        [done | done | apply emptyQuota_fresh |].
      rewrite emptyQuota_size. unfold CONSTANTS.MAX_LABELS. lia.
    - by rewrite scanStep_skip. }
  split; [|split; [|split; [|split]]].
  - intros originStr callerOrigin. unfold sameSchemeAndHost.
    by rewrite andb_true_iff, !String.eqb_eq.
  - by vm_compute.
  - intros jsonData origins Hvalid.
    rewrite (validate_structurallyValid _ _ _ _ Hvalid).
    destruct (URL_new env "https://foo.com"); [|done].
    destruct (scan env "https://foo.com" origins emptyQuota) as [|q] eqn:Hscan.
    + intros _. apply scan_Matched in Hscan as (o & Hin & _ & Hsame).
      exists o. split; [done|]. split; [|done]. by intros ->.
    + simpl. by destruct (hitLimits q).
  - intros jsonData. by apply Hone.
  - intros jsonData. by apply Hone.
Qed.

(** Whether a value is a well-formed document can be decided by running the
    two checks of the code. *)
Lemma valid_or_not (v : JSON) :
  (∃ origins, hasOrigins v (JArray (JString <$> origins)))
  ∨ ¬ (∃ origins, hasOrigins v (JArray (JString <$> origins))).
Proof.
  destruct (get_origins v) as [[[| | | |elems|]|]|e] eqn:Hget;
    try (right; intros [origins Hv%get_origins_spec]; congruence).
  destruct (all_strings elems) as [strs|] eqn:Hall.
  - left. exists strs. apply get_origins_spec.
    by rewrite Hget, (all_strings_Some _ _ Hall).
  - right. intros [origins Hv%get_origins_spec].
    rewrite Hget in Hv. injection Hv as ->.
    by rewrite all_strings_fmap in Hall.
Qed.

(** [validateWellKnownJSON] returns the parse error exactly when the
    document does not parse, or parses to a value other than [null] that is
    not an object whose [origins] is an array of strings. *)
Lemma parse_error_iff (callerOrigin jsonData : string) :
  validateWellKnownJSON env callerOrigin jsonData
    = Return BAD_RELYING_PARTY_ID_JSON_PARSE_ERROR
  ↔ JSON_parse env jsonData = None
    ∨ ∃ v, JSON_parse env jsonData = Some v ∧ v ≠ JNull
           ∧ ¬ ∃ origins, hasOrigins v (JArray (JString <$> origins)).
Proof.
  destruct (JSON_parse env jsonData) as [v|] eqn:Hparse.
  2:{ unfold validateWellKnownJSON. rewrite Hparse. split; [by left | done]. }
  destruct (valid_or_not v) as [[origins Hv]|Hno].
  - pose proof (validate_structurallyValid env callerOrigin jsonData origins) as ->.
    2:{ by exists v. }
    split.
    + destruct (URL_new env callerOrigin); [|done].
      by destruct (scan env callerOrigin origins emptyQuota) as [|[? []]].
    + intros [?|(v' & [= <-] & _ & Hn)]; [done|]. destruct Hn. eauto.
  - unfold validateWellKnownJSON. rewrite Hparse.
    destruct (get_origins v) as [o|e] eqn:Hget.
    2:{ destruct v; try done. split; [done|].
        by intros [?|(v' & [= <-] & ? & _)]. }
    assert (v ≠ JNull) by (by intros ->).
    assert (Return BAD_RELYING_PARTY_ID_JSON_PARSE_ERROR
            = Return BAD_RELYING_PARTY_ID_JSON_PARSE_ERROR
            ↔ Some v = None
              ∨ ∃ v', Some v = Some v' ∧ v' ≠ JNull
                      ∧ ¬ ∃ origins, hasOrigins v' (JArray (JString <$> origins)))
      as Hyes.
    { split; [|done]. intros _. right. by exists v. }
    rewrite truthy_isArray.
    destruct o as [[| | | |elems|]|]; simpl; try apply Hyes.
    destruct (all_strings elems) as [strs|] eqn:Hall; [|apply Hyes].
    exfalso. apply Hno. exists strs. apply get_origins_spec.
    by rewrite Hget, (all_strings_Some _ _ Hall).
Qed.

(** A document whose [origins] is the empty array is not a parse error: it
    matches no caller. *)
Lemma empty_origins (callerOrigin jsonData : string) :
  structurallyValid env jsonData [] →
  validateWellKnownJSON env callerOrigin jsonData
    = Return BAD_RELYING_PARTY_ID_NO_JSON_MATCH.
Proof.
  intros Hvalid. rewrite (validate_structurallyValid _ _ _ _ Hvalid).
  by destruct (URL_new env callerOrigin).
Qed.

(** C3.  A document that parses to [null] is not an object, and yet it is
    not reported as [JSON_PARSE_ERROR]: reading [origins] of [null] throws
    a [TypeError] out of [validateWellKnownJSON]. *)
Theorem null_document_throws (callerOrigin jsonData : string) :
  JSON_parse env jsonData = Some JNull →
  validateWellKnownJSON env callerOrigin jsonData = Throw TypeError.
Proof. unfold validateWellKnownJSON. by intros ->. Qed.

(** An element that has a label has a dot in its hostname. *)
Lemma labelOf_dot (originStr label : string) :
  labelOf env originStr = Some label →
  ∃ originURL, URL_new env originStr = Some originURL
               ∧ contains (hostname originURL) ".".
Proof.
  unfold labelOf, getLabel.
  destruct (URL_new env originStr) as [u|]; [|done].
  destruct (negb (JS.truthy (hostname u))); [done|].
  destruct (JS.indexOf (hostname u) "." =? -1) eqn:Hdot; [done|].
  intros _. exists u. split; [done|].
  apply Z.eqb_neq in Hdot. unfold JS.indexOf in Hdot.
  destruct (JS.find (hostname u) ".") eqn:Hf; [|done].
  destruct (find_Some _ _ _ Hf) as (a & b & -> & _). by exists a, b.
Qed.

(** A caller whose hostname has no dot is not matched by a document in
    which every element that compares equal to it is the caller origin
    itself or has a hostname without a dot: those elements are left before
    the comparison. *)
Lemma dotless_caller (callerOrigin jsonData : string) (origins : list string)
    (callerURL : URL) :
  structurallyValid env jsonData origins →
  URL_new env callerOrigin = Some callerURL →
  ¬ contains (hostname callerURL) "." →
  (∀ originStr, originStr ∈ origins →
     sameSchemeAndHost originStr callerOrigin = true →
     originStr = callerOrigin
     ∨ ∀ originURL, URL_new env originStr = Some originURL →
                    ¬ contains (hostname originURL) ".") →
  ∃ q, scan env callerOrigin origins emptyQuota = Continue q
       ∧ validateWellKnownJSON env callerOrigin jsonData =
           Return (if hitLimits q
                   then BAD_RELYING_PARTY_ID_NO_JSON_MATCH_HIT_LIMITS
                   else BAD_RELYING_PARTY_ID_NO_JSON_MATCH).
Proof.
  intros Hvalid Hcaller Hnodot Hall.
  rewrite (validate_structurallyValid _ _ _ _ Hvalid), Hcaller.
  destruct (scan env callerOrigin origins emptyQuota) as [|q] eqn:Hscan.
  - exfalso. apply scan_Matched in Hscan as (o & Hin & [l Hl] & Hsame).
    apply labelOf_dot in Hl as (v & Hv & Hdot).
    destruct (Hall o Hin Hsame) as [->|Hno].
    + rewrite Hcaller in Hv. by injection Hv as <-.
    + by apply (Hno v).
  - by exists q.
Qed.

(** C10.  A caller origin whose hostname has no dot can be matched: with
    extra slashes after the scheme the raw host of the caller and of an
    element are both empty, so [https:///localhost] compares equal to
    [https:///foo.com], an element with a label, and the result is
    [SUCCESS]. *)
Theorem extra_slashes_match (jsonData : string) :
  structurallyValid env jsonData ["https:///foo.com"] →
  is_Some (URL_new env "https:///localhost") →
  is_Some (labelOf env "https:///foo.com") →
  validateWellKnownJSON env "https:///localhost" jsonData = Return SUCCESS.
Proof.
  intros Hvalid [u Hu] [l Hl].
  rewrite (validate_structurallyValid _ _ _ _ Hvalid), Hu. simpl.
  rewrite (scanStep_room _ _ _ l); [done | done | apply emptyQuota_fresh |].
  rewrite emptyQuota_size. unfold CONSTANTS.MAX_LABELS. lia.
Qed.

End MatcherProperties.

(** ** The orchestrator *)

Section Orchestrator.
Context (env : Env).

Lemma fetchWellKnownWebAuthn_unfold (domain : string) :
  fetchWellKnownWebAuthn env domain =
    match wellKnownURL env domain with
    | None => Throw InvalidDomain
    | Some url =>
        match fetch env url with
        | Rejected => Throw NetworkError
        | Aborted => Throw RequestTimeout
        | Resolved response => received response
        | Stalled response => stalled response
        end
    end.
Proof.
  unfold fetchWellKnownWebAuthn, wellKnownURL, received, stalled.
  destruct (URL_new env _) as [u|]; [|done].
  destruct (fetch env _) as [r|r| |]; [| |done..]; cbv zeta;
    (destruct (negb (ok r)); [done|]);
    (destruct (content_length r) as [cl|];
       [destruct (JS.truthy cl);
          [destruct (JS.parseInt cl) as [n|];
             [destruct (n >? CONSTANTS.MAX_BODY_SIZE)|]|]|]);
    try done;
    (destruct (text r) as [body|]; [|done]);
    by destruct (_ >? _).
Qed.

(** A response whose body never arrives leaves the fetch pending exactly
    when the checks that come before the body is read let it through. *)
Lemma stalled_Pending (r : Response) :
  stalled r = Pending
  ↔ 200 ≤ status r ≤ 299
    ∧ ∀ contentLength n,
        content_length r = Some contentLength →
        JS.parseInt contentLength = Some n → n ≤ 262144.
Proof.
  unfold stalled, ok. change CONSTANTS.MAX_BODY_SIZE with 262144.
  destruct (Z.leb_spec 200 (status r)), (Z.leb_spec (status r) 299); simpl;
    try (split; [done | intros [? _]; lia]).
  destruct (content_length r) as [cl|]; [|split; [split; [lia | done] | done]].
  destruct (JS.truthy cl) eqn:Htruthy.
  - destruct (JS.parseInt cl) as [n|] eqn:Hn.
    + destruct (Z.gtb_spec n 262144).
      * split; [done|]. intros [_ Hle]. specialize (Hle cl n eq_refl Hn). lia.
      * split; [|done]. intros _. split; [lia|].
        intros ? ? [= <-]. rewrite Hn. intros [= <-]. lia.
    + split; [|done]. intros _. split; [lia|].
      intros ? ? [= <-]. by rewrite Hn.
  - split; [|done]. intros _. split; [lia|]. intros ? n [= <-].
    destruct cl; [done | discriminate Htruthy].
Qed.

(** The fetch stays pending exactly when it comes to read a body that
    never arrives. *)
Lemma fetch_Pending (domain : string) :
  fetchWellKnownWebAuthn env domain = Pending ↔ BodyNeverArrives env domain.
Proof.
  rewrite fetchWellKnownWebAuthn_unfold. unfold BodyNeverArrives.
  destruct (wellKnownURL env domain) as [url|].
  2:{ split; [done | by intros (? & ? & ? & _)]. }
  destruct (fetch env url) as [r|r| |] eqn:Hfetch.
  - split; [done|]. intros (? & ? & [= <-] & ? & _). congruence.
  - rewrite stalled_Pending. split.
    + intros [? ?]. by exists url, r.
    + intros (? & r' & [= <-] & Hr & ? & ?). rewrite Hfetch in Hr.
      by injection Hr as <-.
  - split; [done|]. intros (? & ? & [= <-] & ? & _). congruence.
  - split; [done|]. intros (? & ? & [= <-] & ? & _). congruence.
Qed.



(** The statuses [validateWellKnownJSON] returns. *)
Lemma validateWellKnownJSON_statuses (callerOrigin jsonData : string)
    (s : AuthenticatorStatus) :
  validateWellKnownJSON env callerOrigin jsonData = Return s →
  s ≠ BAD_RELYING_PARTY_ID_NOT_SUBDOMAIN_OF_ORIGIN.
Proof.
  unfold validateWellKnownJSON. intros H ->.
  repeat case_match; simplify_eq.
Qed.


(** [validateOrigin] stays pending exactly when the suffix authorizer
    refuses and the fetch stays pending. *)
Lemma validateOrigin_Pending (callerOrigin domain : string) :
  validateOrigin env callerOrigin domain = Pending
  ↔ isValidDomainForOrigin env callerOrigin domain = false
    ∧ fetchWellKnownWebAuthn env domain = Pending.
Proof.
  unfold validateOrigin.
  destruct (isValidDomainForOrigin env callerOrigin domain).
  { split; [done | by intros [? _]]. }
  destruct (fetchWellKnownWebAuthn env domain) as [[jsonData|e]|]; simpl.
  - destruct (validateWellKnownJSON env callerOrigin jsonData);
      (split; [done | by intros [_ ?]]).
  - split; [done | by intros [_ ?]].
  - done.
Qed.

(** [validateOrigin] never throws: it stays pending, or it returns a
    status, and never the status 4. *)
Lemma validateOrigin_always (callerOrigin domain : string) :
  validateOrigin env callerOrigin domain = Pending
  ∨ ∃ s, validateOrigin env callerOrigin domain = Return s
         ∧ s ≠ BAD_RELYING_PARTY_ID_NOT_SUBDOMAIN_OF_ORIGIN.
Proof.
  unfold validateOrigin.
  destruct (isValidDomainForOrigin env callerOrigin domain); [by eauto|].
  destruct (fetchWellKnownWebAuthn env domain) as [[jsonData|e]|];
    [|by eauto|by left].
  simpl.
  destruct (validateWellKnownJSON env callerOrigin jsonData) as [s|e] eqn:Hv;
    [|by eauto].
  right. exists s. split; [done|]. by eapply validateWellKnownJSON_statuses.
Qed.

(** C7.  [validateOrigin] never throws, and when it ends, its result is
    [SUCCESS] (0), [JSON_PARSE_ERROR] (1), [NO_MATCH] (2) or
    [NO_MATCH_HIT_LIMITS] (3), never
    [BAD_RELYING_PARTY_ID_NOT_SUBDOMAIN_OF_ORIGIN], the member of the enum
    with value 4.  It does not always end: it stays pending exactly when
    the suffix authorizer refuses the pair and the body of the response
    never arrives, the response having a 2xx status and no [Content-Length]
    over the limit.  The timer that aborts the request is cleared when the
    response arrives, before its body is read. *)
Theorem validateOrigin_ends_unless_body_stalls (callerOrigin domain : string) :
  ordinal BAD_RELYING_PARTY_ID_NOT_SUBDOMAIN_OF_ORIGIN = 4
  ∧ (validateOrigin env callerOrigin domain = Pending
     ↔ isValidDomainForOrigin env callerOrigin domain = false
       ∧ BodyNeverArrives env domain)
  ∧ (validateOrigin env callerOrigin domain = Pending
     ∨ ∃ s, validateOrigin env callerOrigin domain = Return s
            ∧ s ≠ BAD_RELYING_PARTY_ID_NOT_SUBDOMAIN_OF_ORIGIN
            ∧ ((s = SUCCESS ∧ ordinal s = 0)
               ∨ (s = BAD_RELYING_PARTY_ID_JSON_PARSE_ERROR ∧ ordinal s = 1)
               ∨ (s = BAD_RELYING_PARTY_ID_NO_JSON_MATCH ∧ ordinal s = 2)
               ∨ (s = BAD_RELYING_PARTY_ID_NO_JSON_MATCH_HIT_LIMITS
                  ∧ ordinal s = 3))).
Proof.
  split; [done|]. split.
  - by rewrite validateOrigin_Pending, fetch_Pending.
  - destruct (validateOrigin_always callerOrigin domain) as [?|(s & Hs & Hne)];
      [by left|].
    right. exists s. split; [done|]. split; [done|]. destruct s; naive_solver.
Qed.

End Orchestrator.

(** ** The properties on the executable environment *)

Section OnTheFixture.

#[local] Abbreviation a := "https://a.com" (only parsing).
#[local] Abbreviation b := "https://b.com" (only parsing).
#[local] Abbreviation c := "https://c.com" (only parsing).
#[local] Abbreviation d := "https://d.com" (only parsing).
#[local] Abbreviation e := "https://e.com" (only parsing).
#[local] Abbreviation foo := "https://foo.com" (only parsing).

(** The document that lists [origins] is structurally valid. *)
Ltac fixture_valid :=
  eexists; split;
  [ vm_compute; reflexivity
  | exists [], []; split; [reflexivity | constructor] ].

Ltac fresh_label := apply (bool_decide_eq_false_1 _); vm_compute; reflexivity.
Ltac known_label := apply (bool_decide_eq_true_1 _); vm_compute; reflexivity.

(** The examples of the specification for the suffix authorizer. *)
Example suffix_authorizer_examples :
  isValidDomainForOrigin Fixture.env "https://example.com" "example.com" = true
  ∧ isValidDomainForOrigin Fixture.env "https://sub.example.com" "example.com" = true
  ∧ isValidDomainForOrigin Fixture.env "https://deep.sub.example.com" "example.com" = true
  ∧ isValidDomainForOrigin Fixture.env "https://notexample.com" "example.com" = false
  ∧ isValidDomainForOrigin Fixture.env "https://example.com" "example.org" = false
  ∧ isValidDomainForOrigin Fixture.env "https://sub.example.co.uk" "co.uk" = false
  ∧ isValidDomainForOrigin Fixture.env "invalid-url" "example.com" = false.
Proof. by vm_compute. Qed.

Example getLabel_examples :
  getLabel Fixture.env "localhost" = None
  ∧ getLabel Fixture.env "com" = None
  ∧ getLabel Fixture.env "foo.com" = Some "foo"
  ∧ getLabel Fixture.env "sub.example.co.uk" = Some "example".
Proof. by vm_compute. Qed.

(** The table of the test suite for [validateWellKnownJSON]. *)
Example validateWellKnownJSON_examples :
  let run origins := validateWellKnownJSON Fixture.env foo (Fixture.wellKnown origins) in
  validateWellKnownJSON Fixture.env foo "[]" = Return BAD_RELYING_PARTY_ID_JSON_PARSE_ERROR
  ∧ validateWellKnownJSON Fixture.env foo "{}" = Return BAD_RELYING_PARTY_ID_JSON_PARSE_ERROR
  ∧ validateWellKnownJSON Fixture.env foo "{invalid json}"
      = Return BAD_RELYING_PARTY_ID_JSON_PARSE_ERROR
  ∧ validateWellKnownJSON Fixture.env foo
      ("{" +:+ Fixture.quote "origins" +:+ ":" +:+ Fixture.quote "bar" +:+ "}")
      = Return BAD_RELYING_PARTY_ID_JSON_PARSE_ERROR
  ∧ validateWellKnownJSON Fixture.env foo ("{" +:+ Fixture.quote "origins" +:+ ":[1]}")
      = Return BAD_RELYING_PARTY_ID_JSON_PARSE_ERROR
  ∧ run [] = Return BAD_RELYING_PARTY_ID_NO_JSON_MATCH
  ∧ run [foo] = Return SUCCESS
  ∧ run ["https://foo2.com"] = Return BAD_RELYING_PARTY_ID_NO_JSON_MATCH
  ∧ run ["https://com"] = Return BAD_RELYING_PARTY_ID_NO_JSON_MATCH
  ∧ run ["other://foo.com"] = Return BAD_RELYING_PARTY_ID_NO_JSON_MATCH
  ∧ run [a; b; c; d; foo; e] = Return SUCCESS
  ∧ run ["https://foo.co.uk"; "https://foo.de"; "https://foo.in"; "https://foo.net";
         "https://foo.org"; foo] = Return SUCCESS
  ∧ run [""; foo] = Return SUCCESS
  ∧ run ["https://FOO.COM"] = Return BAD_RELYING_PARTY_ID_NO_JSON_MATCH
  ∧ run ["https://foo.com/path"] = Return SUCCESS
  ∧ validateWellKnownJSON Fixture.env "invalid-url" (Fixture.wellKnown [foo])
      = Return BAD_RELYING_PARTY_ID_NO_JSON_MATCH.
Proof. by vm_compute. Qed.

(** [label_quota] on the two documents of the test suite: the matching
    origin as the 5th label, and as the 6th. *)
Lemma label_quota_witness :
  validateWellKnownJSON Fixture.env foo (Fixture.wellKnown [a; b; c; d; foo])
    = Return SUCCESS
  ∧ validateWellKnownJSON Fixture.env foo (Fixture.wellKnown [a; b; c; d; e; foo])
    = Return BAD_RELYING_PARTY_ID_NO_JSON_MATCH_HIT_LIMITS.
Proof.
  assert (is_Some (URL_new Fixture.env foo)) as Hcaller by (vm_compute; eauto).
  split.
  - assert (structurallyValid Fixture.env (Fixture.wellKnown [a; b; c; d; foo])
              [a; b; c; d; foo]) as Hvalid by fixture_valid.
    destruct (label_quota Fixture.env _ _ _ Hvalid Hcaller) as [_ Hquota].
    destruct (Hquota [a; b; c; d] foo []
                {| uniqueLabels := {["a"; "b"; "c"; "d"]}; hitLimits := false |}
                "foo") as [H5th _];
      [reflexivity | vm_compute; reflexivity | vm_compute; reflexivity
      | fresh_label | vm_compute; reflexivity |].
    apply H5th. vm_compute. lia.
  - assert (structurallyValid Fixture.env (Fixture.wellKnown [a; b; c; d; e; foo])
              [a; b; c; d; e; foo]) as Hvalid by fixture_valid.
    destruct (label_quota Fixture.env _ _ _ Hvalid Hcaller) as [_ Hquota].
    destruct (Hquota [a; b; c; d; e] foo []
                {| uniqueLabels := {["a"; "b"; "c"; "d"; "e"]}; hitLimits := false |}
                "foo") as [_ H6th];
      [reflexivity | vm_compute; reflexivity | vm_compute; reflexivity
      | fresh_label | vm_compute; reflexivity |].
    destruct H6th as [_ Hlimits]; [vm_compute; reflexivity|].
    apply Hlimits. intros x l Hx. apply elem_of_nil in Hx. destruct Hx.
Defined.

(** [match_after_exhaustion] on a document with six labels in which the
    caller comes last, under a label admitted first. *)
Lemma match_after_exhaustion_witness :
  validateWellKnownJSON Fixture.env foo
    (Fixture.wellKnown ["https://x.foo.com"; b; c; d; e; "https://g.com"; foo])
    = Return SUCCESS.
Proof.
  destruct (match_after_exhaustion Fixture.env foo) as [_ Hlater].
  apply (Hlater _ ["https://x.foo.com"; b; c; d; e; "https://g.com"] foo []
           {| uniqueLabels := {["foo"; "b"; "c"; "d"; "e"]}; hitLimits := true |}
           "foo");
    [fixture_valid | vm_compute; eauto | vm_compute; reflexivity | reflexivity
    | vm_compute; reflexivity | known_label | vm_compute; reflexivity].
Defined.

(** [unlabelled_elements_skipped] on the document of the test suite. *)
Lemma unlabelled_elements_skipped_witness :
  validateWellKnownJSON Fixture.env foo (Fixture.wellKnown ["invalid-url"; foo])
    = Return SUCCESS
  ∧ validateWellKnownJSON Fixture.env foo (Fixture.wellKnown [a; "https://localhost"; foo])
    = validateWellKnownJSON Fixture.env foo (Fixture.wellKnown [a; foo]).
Proof.
  destruct (unlabelled_elements_skipped Fixture.env) as (_ & _ & Hsame & Hexample).
  split.
  - apply Hexample; [fixture_valid | vm_compute; eauto].
  - apply (Hsame foo _ _ [a] "https://localhost" [foo]);
      [fixture_valid | fixture_valid | vm_compute; reflexivity].
Defined.

(** [case_sensitive_comparison] on the documents of the test suite. *)
Lemma case_sensitive_comparison_witness :
  validateWellKnownJSON Fixture.env foo (Fixture.wellKnown ["HTTPS://Foo.com"])
    = Return BAD_RELYING_PARTY_ID_NO_JSON_MATCH
  ∧ validateWellKnownJSON Fixture.env "https://foo.com:8080"
      (Fixture.wellKnown ["https://foo.com:9090"])
    = Return BAD_RELYING_PARTY_ID_NO_JSON_MATCH.
Proof.
  destruct (case_sensitive_comparison Fixture.env) as (_ & _ & _ & Hcase & Hport).
  split; [apply Hcase | apply Hport]; fixture_valid.
Defined.

(** [null_document_throws] on the document [null]. *)
Lemma null_document_throws_witness :
  Fixture.JSON_parse "null" = Some JNull
  ∧ validateWellKnownJSON Fixture.env foo "null" = Throw TypeError.
Proof.
  split; [reflexivity|].
  apply (null_document_throws Fixture.env). vm_compute; reflexivity.
Defined.

(** [extra_slashes_match]: the hostname of the caller is [localhost], which
    has no dot, and the document that lists [https:///foo.com] matches it. *)
Lemma extra_slashes_match_witness :
  hostname <$> Fixture.URL_new "https:///localhost" = Some "localhost"
  ∧ JS.indexOf "localhost" "." = -1
  ∧ hostname <$> Fixture.URL_new "https:///foo.com" = Some "foo.com"
  ∧ validateWellKnownJSON Fixture.env "https:///localhost"
      (Fixture.wellKnown ["https:///foo.com"]) = Return SUCCESS.
Proof.
  split; [reflexivity|]. split; [reflexivity|]. split; [reflexivity|].
  apply (extra_slashes_match Fixture.env);
    [fixture_valid | vm_compute; eauto | vm_compute; eauto].
Defined.


(** [validateOrigin_ends_unless_body_stalls] on a server that answers with
    the status 200 and never sends the body: the promise stays pending. *)
Lemma validateOrigin_ends_unless_body_stalls_witness :
  isValidDomainForOrigin Fixture.env foo "stall.example.com" = false
  ∧ Fixture.fetch "https://stall.example.com/.well-known/webauthn"
    = Stalled {| status := 200; content_length := Some "100"; text := None |}
  ∧ validateOrigin Fixture.env foo "stall.example.com" = Pending.
Proof.
  split; [reflexivity|]. split; [reflexivity|].
  destruct (validateOrigin_ends_unless_body_stalls Fixture.env foo
              "stall.example.com") as (_ & Hpending & _).
  apply Hpending. split; [vm_compute; reflexivity|].
  exists "https://stall.example.com/.well-known/webauthn",
    {| status := 200; content_length := Some "100"; text := None |}.
  split; [vm_compute; reflexivity|]. split; [reflexivity|].
  split; [simpl; lia|].
  intros contentLength n [= <-] Hn. vm_compute in Hn. injection Hn as <-. lia.
Defined.

(** The orchestrator on the fixture's network: the fast path, the fallback
    and a document that throws inside the matcher. *)
Example validateOrigin_examples :
  validateOrigin Fixture.env "https://sub.example.com" "example.com" = Return SUCCESS
  ∧ validateOrigin Fixture.env foo "bar.com" = Return SUCCESS
  ∧ validateOrigin Fixture.env "https://baz.com" "bar.com"
    = Return BAD_RELYING_PARTY_ID_NO_JSON_MATCH
  ∧ validateOrigin Fixture.env foo "null.example.com"
    = Return BAD_RELYING_PARTY_ID_NO_JSON_MATCH.
Proof. by vm_compute. Qed.

End OnTheFixture.

(** ** More on the matcher: what a result tells about the document *)

Section MatcherResults.
Context (env : Env).

(** A document is structurally valid, or reported as a parse error, or it
    is [null] and the matcher throws. *)
Lemma validate_cases (callerOrigin jsonData : string) :
  (∃ origins, structurallyValid env jsonData origins)
  ∨ validateWellKnownJSON env callerOrigin jsonData
      = Return BAD_RELYING_PARTY_ID_JSON_PARSE_ERROR
  ∨ validateWellKnownJSON env callerOrigin jsonData = Throw TypeError.
Proof.
  destruct (JSON_parse env jsonData) as [v|] eqn:Hparse.
  2:{ right. left. apply parse_error_iff. by left. }
  destruct (valid_or_not v) as [[origins Hv]|Hno].
  { left. exists origins. by exists v. }
  assert (v = JNull ∨ v ≠ JNull) as [->|Hnull] by (destruct v; auto).
  - right. right. unfold validateWellKnownJSON. by rewrite Hparse.
  - right. left. apply parse_error_iff. right. by exists v.
Qed.

(** A document has one list of origins. *)
Lemma structurallyValid_unique (jsonData : string) (origins origins' : list string) :
  structurallyValid env jsonData origins →
  structurallyValid env jsonData origins' → origins = origins'.
Proof.
  intros (v & Hp & Hv%get_origins_spec) (v' & Hp' & Hv'%get_origins_spec).
  rewrite Hp in Hp'. injection Hp' as <-. rewrite Hv in Hv'.
  injection Hv' as Heq. clear Hv Hp. revert origins' Heq.
  induction origins as [|o os IH]; intros [|o' os']; csimpl; try done.
  intros [= -> Hos]. f_equal. by apply IH.
Qed.

(** X1.  [SUCCESS] is only returned for a caller origin that parses and a
    structurally valid document one of whose elements has a label and
    compares equal to the caller. *)
Theorem success_sound (callerOrigin jsonData : string) :
  validateWellKnownJSON env callerOrigin jsonData = Return SUCCESS →
  is_Some (URL_new env callerOrigin)
  ∧ ∃ origins,
      structurallyValid env jsonData origins
      ∧ ∃ originStr, originStr ∈ origins
                     ∧ is_Some (labelOf env originStr)
                     ∧ sameSchemeAndHost originStr callerOrigin = true.
Proof.
  intros Hsuccess.
  destruct (validate_cases callerOrigin jsonData)
    as [[origins Hvalid]|[Herr|Herr]]; [|congruence..].
  rewrite (validate_structurallyValid _ _ _ _ Hvalid) in Hsuccess.
  destruct (URL_new env callerOrigin) as [u|]; [|done].
  split; [by eauto|]. exists origins. split; [done|].
  destruct (scan env callerOrigin origins emptyQuota) as [|q] eqn:Hscan.
  - by apply scan_Matched in Hscan.
  - simpl in Hsuccess. by destruct (hitLimits q).
Qed.

(** X2.  An authorization is not revoked by listing more origins after the
    ones that grant it: when a document is matched, so is every document
    that continues its list. *)
Theorem first_match_wins (callerOrigin jsonData jsonData' : string)
    (origins more : list string) :
  structurallyValid env jsonData origins →
  structurallyValid env jsonData' (origins ++ more) →
  validateWellKnownJSON env callerOrigin jsonData = Return SUCCESS →
  validateWellKnownJSON env callerOrigin jsonData' = Return SUCCESS.
Proof.
  intros Hvalid Hvalid'.
  rewrite (validate_structurallyValid _ _ _ _ Hvalid).
  rewrite (validate_structurallyValid _ _ _ _ Hvalid').
  destruct (URL_new env callerOrigin); [|done]. rewrite scan_app.
  destruct (scan env callerOrigin origins emptyQuota) as [|q]; [done|].
  simpl. by destruct (hitLimits q).
Qed.

(** *** The flag and the number of labels *)

Lemma tracks_empty : tracks ∅ emptyQuota.
Proof. split; [done|]. split; [|done]. rewrite emptyQuota_size. lia. Qed.

Lemma labelsOf_cons (originStr : string) (origins : list string) :
  labelsOf env (originStr :: origins) =
    match labelOf env originStr with
    | Some label => {[label]} ∪ labelsOf env origins
    | None => labelsOf env origins
    end.
Proof. unfold labelsOf. csimpl. by destruct (labelOf env originStr). Qed.

Lemma tracks_step (callerOrigin originStr : string) (seen : gset string)
    (q q' : Quota) :
  tracks seen q →
  scanStep env callerOrigin q originStr = Continue q' →
  tracks (seen ∪ labelsOf env [originStr]) q'.
Proof.
  intros (Hsub & Hsize & Hflag). rewrite labelsOf_cons.
  destruct (labelOf env originStr) as [l|] eqn:Hl.
  2:{ rewrite scanStep_skip by done. intros [= <-].
      replace (seen ∪ labelsOf env []) with seen by set_solver. done. }
  replace ({[l]} ∪ labelsOf env []) with ({[l]} : gset string) by set_solver.
  destruct (decide (l ∈ uniqueLabels q)) as [Hin|Hin].
  { rewrite (scanStep_admitted _ _ _ l) by done.
    destruct (sameSchemeAndHost _ _); [done|]. intros [= <-].
    replace (seen ∪ {[l]}) with seen by set_solver. done. }
  destruct (Nat.lt_ge_cases (size (uniqueLabels q)) CONSTANTS.MAX_LABELS)
    as [Hroom|Hfull].
  - rewrite (scanStep_room _ _ _ l) by done.
    destruct (sameSchemeAndHost _ _); [done|]. intros [= <-].
    unfold tracks; cbn [uniqueLabels hitLimits].
    split; [set_solver|]. split.
    + rewrite size_union by set_solver. rewrite size_singleton.
      unfold CONSTANTS.MAX_LABELS in Hroom. lia.
    + destruct (hitLimits q).
      * pose proof (subseteq_size seen (seen ∪ {[l]}) ltac:(set_solver)). lia.
      * rewrite Hflag. set_solver.
  - rewrite (scanStep_full _ _ _ l) by done. intros [= <-].
    unfold tracks; cbn [uniqueLabels hitLimits].
    split; [set_solver|]. split; [done|].
    unfold CONSTANTS.MAX_LABELS in Hfull.
    pose proof (subseteq_size ({[l]} ∪ uniqueLabels q) (seen ∪ {[l]})
                  ltac:(set_solver)) as Hle.
    rewrite size_union, size_singleton in Hle by set_solver. lia.
Qed.

Lemma tracks_scan (callerOrigin : string) (origins : list string)
    (seen : gset string) (q q' : Quota) :
  tracks seen q →
  scan env callerOrigin origins q = Continue q' →
  tracks (seen ∪ labelsOf env origins) q'.
Proof.
  revert seen q; induction origins as [|x xs IH]; intros seen q Hq; simpl.
  - intros [= <-]. by replace (seen ∪ labelsOf env []) with seen by set_solver.
  - destruct (scanStep env callerOrigin q x) as [|q1] eqn:Hstep; [done|].
    intros Hscan. pose proof (tracks_step _ _ _ _ _ Hq Hstep) as Hq1.
    pose proof (IH _ _ Hq1 Hscan) as Hq'.
    replace (seen ∪ labelsOf env (x :: xs))
      with (seen ∪ labelsOf env [x] ∪ labelsOf env xs); [done|].
    rewrite !labelsOf_cons. destruct (labelOf env x); set_solver.
Qed.

(** X3.  When a structurally valid document does not match a caller origin
    that parses, the result is [NO_MATCH_HIT_LIMITS] if its elements carry
    more than 5 distinct labels, and [NO_MATCH] if they carry at most 5. *)
Theorem limits_iff_six_labels (callerOrigin jsonData : string)
    (origins : list string) :
  structurallyValid env jsonData origins →
  is_Some (URL_new env callerOrigin) →
  validateWellKnownJSON env callerOrigin jsonData ≠ Return SUCCESS →
  validateWellKnownJSON env callerOrigin jsonData =
    Return (if decide (5 < size (labelsOf env origins))%nat
            then BAD_RELYING_PARTY_ID_NO_JSON_MATCH_HIT_LIMITS
            else BAD_RELYING_PARTY_ID_NO_JSON_MATCH).
Proof.
  intros Hvalid [u Hu].
  rewrite (validate_structurallyValid _ _ _ _ Hvalid), Hu.
  destruct (scan env callerOrigin origins emptyQuota) as [|q] eqn:Hscan; [done|].
  intros _. apply (tracks_scan _ _ _ _ _ tracks_empty) in Hscan
    as (_ & Hsize & Hflag).
  replace (∅ ∪ labelsOf env origins) with (labelsOf env origins) in Hflag
    by set_solver.
  simpl. destruct (hitLimits q).
  - by rewrite decide_True.
  - rewrite decide_False; [done|]. rewrite Hflag. lia.
Qed.

(** *** Repeated elements *)

(** An element that the loop has passed is passed again in any later
    state. *)
Lemma scanStep_again (callerOrigin originStr : string) (between : list string)
    (q q1 q2 : Quota) :
  (size (uniqueLabels q) ≤ CONSTANTS.MAX_LABELS)%nat →
  scanStep env callerOrigin q originStr = Continue q1 →
  scan env callerOrigin between q1 = Continue q2 →
  scanStep env callerOrigin q2 originStr = Continue q2.
Proof.
  intros Hsize Hstep Hscan.
  pose proof (scanStep_labels _ _ _ _ _ Hstep) as (Hsub1 & Hsize1 & Hhit1).
  pose proof (scan_labels _ _ _ _ _ Hscan) as (Hsub2 & Hsize2 & Hhit2).
  destruct (labelOf env originStr) as [l|] eqn:Hl; [|by apply scanStep_skip].
  destruct (decide (l ∈ uniqueLabels q)) as [Hin|Hin].
  { rewrite (scanStep_admitted _ _ _ l) in Hstep by done.
    rewrite (scanStep_admitted _ _ _ l) by set_solver.
    by destruct (sameSchemeAndHost _ _). }
  destruct (Nat.lt_ge_cases (size (uniqueLabels q)) CONSTANTS.MAX_LABELS)
    as [Hroom|Hfull].
  - rewrite (scanStep_room _ _ _ l) in Hstep by done.
    destruct (sameSchemeAndHost originStr callerOrigin) eqn:Hsame; [done|].
    injection Hstep as <-. simpl in *.
    rewrite (scanStep_admitted _ _ _ l) by set_solver. by rewrite Hsame.
  - rewrite (scanStep_full _ _ _ l) in Hstep by done.
    injection Hstep as <-. simpl in *.
    assert (uniqueLabels q = uniqueLabels q2) as Heq.
    { apply set_subseteq_size_eq; [done|]. specialize (Hsize2 (Hsize1 Hsize)). lia. }
    rewrite (scanStep_full _ _ _ l); [| done | by rewrite <- Heq | by rewrite <- Heq].
    destruct q2 as [labels2 hit2]. simpl in *. by rewrite Hhit2.
Qed.

(** X4.  Listing an origin a second time does not change the result. *)
Theorem repeated_origin (callerOrigin jsonData jsonData' : string)
    (pre between post : list string) (originStr : string) :
  structurallyValid env jsonData
    (pre ++ originStr :: between ++ originStr :: post) →
  structurallyValid env jsonData' (pre ++ originStr :: between ++ post) →
  validateWellKnownJSON env callerOrigin jsonData
    = validateWellKnownJSON env callerOrigin jsonData'.
Proof.
  intros Hvalid Hvalid'.
  rewrite (validate_structurallyValid _ _ _ _ Hvalid).
  rewrite (validate_structurallyValid _ _ _ _ Hvalid').
  destruct (URL_new env callerOrigin); [|done]. f_equal. f_equal.
  rewrite !scan_app.
  destruct (scan env callerOrigin pre emptyQuota) as [|q] eqn:Hpre; [done|].
  simpl.
  destruct (scanStep env callerOrigin q originStr) as [|q1] eqn:Hstep; [done|].
  rewrite !scan_app.
  destruct (scan env callerOrigin between q1) as [|q2] eqn:Hbetween; [done|].
  simpl.
  rewrite (scanStep_again callerOrigin originStr between q q1 q2);
    [done | | done | done].
  apply scan_labels in Hpre as (_ & Hsize & _). apply Hsize.
  rewrite emptyQuota_size. lia.
Qed.

End MatcherResults.

(** ** The fetch and the orchestrator: when each result arises *)

Section OrchestratorResults.
Context (env : Env).

Lemma parseInt_empty : JS.parseInt EmptyString = None.
Proof. reflexivity. Qed.

(** X5.  [fetchWellKnownWebAuthn] returns a body exactly when the domain
    gives a URL, the response to it has a 2xx status, no [Content-Length]
    that reads as a number over 262144, and a body of at most 262144 units,
    which is the one returned.  So a returned body never exceeds the limit,
    whatever the header says. *)
Theorem fetch_returns_iff (domain body : string) :
  fetchWellKnownWebAuthn env domain = Return body
  ↔ ∃ url r,
      wellKnownURL env domain = Some url
      ∧ fetch env url = Resolved r
      ∧ 200 ≤ status r ≤ 299
      ∧ (∀ contentLength n,
           content_length r = Some contentLength →
           JS.parseInt contentLength = Some n → n ≤ 262144)
      ∧ text r = Some body
      ∧ Z.of_nat (String.length body) ≤ 262144.
Proof.
  rewrite fetchWellKnownWebAuthn_unfold.
  destruct (wellKnownURL env domain) as [url|].
  2:{ split; [done | by intros (? & ? & ? & _)]. }
  destruct (fetch env url) as [r|r| |] eqn:Hfetch;
    [|split; [|by intros (? & ? & [= <-] & ? & _); congruence]..];
    [|intros Hstalled|done..].
  2:{ unfold stalled in Hstalled. by repeat case_match. }
  unfold received, ok. change CONSTANTS.MAX_BODY_SIZE with 262144.
  split.
  - intros [= Hret]. revert Hret.
    destruct (Z.leb_spec 200 (status r)), (Z.leb_spec (status r) 299);
      simpl; try done.
    intros Hret.
    assert (∀ contentLength n,
              content_length r = Some contentLength →
              JS.parseInt contentLength = Some n → n ≤ 262144) as Hheader.
    { intros cl n Hcl Hn. rewrite Hcl in Hret.
      destruct cl as [|c cl]; [done|]. cbn [JS.truthy String.eqb negb] in Hret.
      rewrite Hn in Hret. by destruct (Z.gtb_spec n 262144). }
    destruct (match content_length r with Some _ => _ | None => _ end);
      [done|].
    destruct (text r) as [t|] eqn:Ht; [|done].
    destruct (Z.gtb_spec (Z.of_nat (String.length t)) 262144); [done|].
    injection Hret as <-. exists url, r. repeat split; try done; lia.
  - intros (url' & r' & [= <-] & Hr & Hstatus & Hheader & Htext & Hlen).
    rewrite Hfetch in Hr. injection Hr as <-.
    destruct (Z.leb_spec 200 (status r)); [|lia].
    destruct (Z.leb_spec (status r) 299); [|lia]. simpl.
    assert (match content_length r with
            | Some contentLength =>
                if JS.truthy contentLength
                then match JS.parseInt contentLength with
                     | Some n => if n >? 262144 then Some n else None
                     | None => None
                     end
                else None
            | None => None
            end = None) as ->.
    { destruct (content_length r) as [cl|]; [|done].
      destruct (JS.truthy cl); [|done].
      destruct (JS.parseInt cl) as [n|] eqn:Hn; [|done].
      specialize (Hheader cl n eq_refl Hn).
      by destruct (Z.gtb_spec n 262144); [lia|]. }
    rewrite Htext.
    by destruct (Z.gtb_spec (Z.of_nat (String.length body)) 262144); [lia|].
Qed.

(** X6.  [validateOrigin] returns [SUCCESS] exactly when the suffix
    authorizer authorizes the pair or the fetched document is matched; it
    returns [JSON_PARSE_ERROR] or [NO_MATCH_HIT_LIMITS] exactly when the
    authorizer refuses and the matcher returns that status on the fetched
    document; and [NO_MATCH] exactly when the authorizer refuses and the
    fetch throws, or the matcher throws or returns [NO_MATCH]. *)
Theorem validateOrigin_results (callerOrigin domain : string) :
  (validateOrigin env callerOrigin domain = Return SUCCESS
     ↔ isValidDomainForOrigin env callerOrigin domain = true
       ∨ ∃ jsonData,
           fetchWellKnownWebAuthn env domain = Return jsonData
           ∧ validateWellKnownJSON env callerOrigin jsonData = Return SUCCESS)
  ∧ (∀ s, s = BAD_RELYING_PARTY_ID_JSON_PARSE_ERROR
          ∨ s = BAD_RELYING_PARTY_ID_NO_JSON_MATCH_HIT_LIMITS →
       (validateOrigin env callerOrigin domain = Return s
          ↔ isValidDomainForOrigin env callerOrigin domain = false
            ∧ ∃ jsonData,
                fetchWellKnownWebAuthn env domain = Return jsonData
                ∧ validateWellKnownJSON env callerOrigin jsonData = Return s))
  ∧ (validateOrigin env callerOrigin domain
       = Return BAD_RELYING_PARTY_ID_NO_JSON_MATCH
     ↔ isValidDomainForOrigin env callerOrigin domain = false
       ∧ ((∃ e, fetchWellKnownWebAuthn env domain = Throw e)
          ∨ ∃ jsonData,
              fetchWellKnownWebAuthn env domain = Return jsonData
              ∧ (validateWellKnownJSON env callerOrigin jsonData
                   = Return BAD_RELYING_PARTY_ID_NO_JSON_MATCH
                 ∨ ∃ e, validateWellKnownJSON env callerOrigin jsonData
                          = Throw e))).
Proof.
  unfold validateOrigin.
  destruct (isValidDomainForOrigin env callerOrigin domain).
  { split; [|split]; [|intros s [-> | ->]|];
      (split; [by eauto | intros H; try done; by destruct H]). }
  destruct (fetchWellKnownWebAuthn env domain) as [[jsonData|e]|]; simpl.
  2:{ split; [|split]; [|intros s [-> | ->]|].
      - split; [done | by intros [?|(? & ? & _)]].
      - split; [done | by intros (_ & ? & ? & _)].
      - split; [done | by intros (_ & ? & ? & _)].
      - split; [by eauto | done]. }
  2:{ split; [|split]; [|intros s [-> | ->]|].
      - split; [done | by intros [?|(? & ? & _)]].
      - split; [done | by intros (_ & ? & ? & _)].
      - split; [done | by intros (_ & ? & ? & _)].
      - split; [done | by intros (_ & [[? ?]|(? & ? & _)])]. }
  destruct (validateWellKnownJSON env callerOrigin jsonData) as [s0|e] eqn:Hv;
    simpl.
  - split; [|split]; [|intros s Hs|].
    + split.
      * intros [= ->]. right. by exists jsonData.
      * intros [?|(j & [= <-] & Hj)]; [done | congruence].
    + split.
      * intros [= ->]. split; [done|]. by exists jsonData.
      * intros (_ & j & [= <-] & Hj). congruence.
    + split.
      * intros [= ->]. split; [done|]. right. exists jsonData. eauto.
      * intros (_ & [[e ?]|(j & [= <-] & [Hj|[e Hj]])]); congruence.
  - split; [|split]; [|intros s Hs|].
    + split; [done|]. intros [?|(j & [= <-] & Hj)]; [done | congruence].
    + split; [by destruct Hs as [-> | ->]|].
      intros (_ & j & [= <-] & Hj). congruence.
    + split; [|done]. intros _. split; [done|]. right. exists jsonData. eauto.
Qed.

(** X7.  The text of a status identifies it: a number gets the text of a
    member of the enum only when it is the value of that member. *)
Theorem status_text_identifies (n : Z) (s : AuthenticatorStatus) :
  authenticatorStatusToString n = authenticatorStatusToString (ordinal s)
  ↔ n = ordinal s.
Proof.
  split; [|by intros ->].
  unfold authenticatorStatusToString.
  destruct (Z.eqb_spec n (ordinal SUCCESS)) as [->|H0].
  { by destruct s. }
  destruct (Z.eqb_spec n (ordinal BAD_RELYING_PARTY_ID_JSON_PARSE_ERROR)) as [->|H1].
  { by destruct s. }
  destruct (Z.eqb_spec n (ordinal BAD_RELYING_PARTY_ID_NO_JSON_MATCH)) as [->|H2].
  { by destruct s. }
  destruct (Z.eqb_spec n (ordinal BAD_RELYING_PARTY_ID_NO_JSON_MATCH_HIT_LIMITS))
    as [->|H3].
  { by destruct s. }
  destruct (Z.eqb_spec n (ordinal BAD_RELYING_PARTY_ID_NOT_SUBDOMAIN_OF_ORIGIN))
    as [->|H4].
  { by destruct s. }
  by destruct s.
Qed.

End OrchestratorResults.

(** ** The entry points of [index.ts] *)

Section IndexResults.
Context (env : Env) (error_message : Error → string).

(** X8.  [validatePasskeyOriginFromJSON] never throws.  Its status is
    [JSON_PARSE_ERROR] exactly when the document is not structurally valid,
    the document [null] included, which [validateWellKnownJSON] throws on.
    It is valid exactly when [validateWellKnownJSON] returns [SUCCESS], and
    when [validateWellKnownJSON] returns, the result carries that status
    and its text. *)
Theorem validatePasskeyOriginFromJSON_results (origin wellKnownJson : string) :
  ∃ r,
    Index.validatePasskeyOriginFromJSON env error_message origin wellKnownJson
      = Return r
    ∧ (Index.status r = BAD_RELYING_PARTY_ID_JSON_PARSE_ERROR
         ↔ ¬ ∃ origins, structurallyValid env wellKnownJson origins)
    ∧ (Index.isValid r = true
         ↔ validateWellKnownJSON env origin wellKnownJson = Return SUCCESS)
    ∧ Index.isValid r = Index.isValidationSuccessful (Index.status r)
    ∧ (∀ s, validateWellKnownJSON env origin wellKnownJson = Return s →
            Index.status r = s
            ∧ Index.message r = authenticatorStatusToString (ordinal s)).
Proof.
  unfold Index.validatePasskeyOriginFromJSON.
  destruct (validate_cases env origin wellKnownJson)
    as [[origins Hvalid]|[Herr|Herr]].
  - rewrite (validate_structurallyValid _ _ _ _ Hvalid). simpl.
    eexists. split; [done|]. simpl.
    set (s := match URL_new env origin with Some _ => _ | None => _ end).
    assert (s ≠ BAD_RELYING_PARTY_ID_JSON_PARSE_ERROR) as Hs.
    { unfold s. destruct (URL_new env origin); [|done].
      by destruct (scan env origin origins emptyQuota) as [|[? []]]. }
    split; [split; [done | intros Hno; destruct Hno; eauto]|].
    split; [by destruct s|]. split; [done|]. by intros s' [= <-].
  - assert (¬ ∃ origins, structurallyValid env wellKnownJson origins) as Hno.
    { intros [origins Hvalid].
      rewrite (validate_structurallyValid _ _ _ _ Hvalid) in Herr.
      destruct (URL_new env origin); [|done].
      by destruct (scan env origin origins emptyQuota) as [|[? []]]. }
    rewrite Herr. simpl. eexists. split; [done|]. simpl.
    split; [done|]. split; [done|]. split; [done|]. by intros s' [= <-].
  - assert (¬ ∃ origins, structurallyValid env wellKnownJson origins) as Hno.
    { intros [origins Hvalid].
      by rewrite (validate_structurallyValid _ _ _ _ Hvalid) in Herr. }
    rewrite Herr. simpl. eexists. split; [done|]. simpl.
    split; [done|]. split; [done|]. split; [done|]. done.
Qed.

(** X9.  [validatePasskeyOrigin] never throws and never takes its [catch]
    branch.  It stays pending when [validateOrigin] does for the origin and
    the relying party; otherwise its status is the one [validateOrigin]
    returns, its message is the text of that status, and it is valid
    exactly when the status is [SUCCESS]. *)
Theorem validatePasskeyOrigin_results (rpId origin : string) :
  (Index.validatePasskeyOrigin env error_message rpId origin = Pending
   ∧ validateOrigin env origin rpId = Pending)
  ∨ ∃ r,
      Index.validatePasskeyOrigin env error_message rpId origin = Return r
      ∧ validateOrigin env origin rpId = Return (Index.status r)
      ∧ Index.message r = authenticatorStatusToString (ordinal (Index.status r))
      ∧ (Index.isValid r = true ↔ Index.status r = SUCCESS)
      ∧ Index.status r ≠ BAD_RELYING_PARTY_ID_NOT_SUBDOMAIN_OF_ORIGIN.
Proof.
  unfold Index.validatePasskeyOrigin.
  destruct (validateOrigin_always env origin rpId) as [->|(s & -> & Hs)];
    [by left|].
  right. simpl. eexists. split; [done|]. simpl. split; [done|]. split; [done|].
  split; [by destruct s | done].
Qed.

End IndexResults.

(** ** Logging does not change what the validator returns *)

Section LoggingProperties.
Context {E S : Type} (env : Env) (rt : Logged.Runtime E).

#[local] Abbreviation World := (Logged.World E S).
#[local] Abbreviation LoggingAdapter := (@Logged.LoggingAdapter E S).
#[local] Abbreviation M := (@Logged.M E S).

(** *** The adapter *)

Lemma adapter_returns (loggingFunction : option LoggingAdapter)
    (message : string) (error : option E) (w : World) :
  (Logged.createLoggingAdapter loggingFunction message error w).2 = None.
Proof.
  unfold Logged.createLoggingAdapter.
  destruct error;
    by destruct (default Logged.defaultLogger loggingFunction _ _ w) as [w1 [x|]].
Qed.

(** X10.  A wrapped logging function never throws.  When the logging
    function returns, the wrapped one does what it does; when it throws,
    the thrown value goes to [console.error] and the message to
    [console.log], after what the logging function did before it threw.
    Wrapping twice is wrapping once. *)
Theorem createLoggingAdapter_spec (f : LoggingAdapter) (message : string)
    (error : option E) (w : World) :
  (Logged.createLoggingAdapter (Some f) message error w).2 = None
  ∧ (∀ w', f message error w = (w', None) →
           Logged.createLoggingAdapter (Some f) message error w = (w', None))
  ∧ (∀ w' e, f message error w = (w', Some e) →
             Logged.createLoggingAdapter (Some f) message error w
             = (Logged.consoleLog message error (Logged.consoleError e w'), None))
  ∧ Logged.createLoggingAdapter (Some (Logged.createLoggingAdapter (Some f)))
      message error w
    = Logged.createLoggingAdapter (Some f) message error w.
Proof.
  split; [apply adapter_returns|].
  unfold Logged.createLoggingAdapter. simpl.
  split; [|split].
  - intros w' Hf. destruct error; by rewrite Hf.
  - intros w' e Hf. destruct error; by rewrite Hf.
  - destruct error; by destruct (f message _ w) as [w1 [x|]].
Qed.

(** A wrapped logging function keeps what the logging function keeps, when
    that one never throws... *)
Lemma keeps_returning (P : World → Prop) (f : LoggingAdapter) :
  Logged.keeps P f → (∀ message error w, (f message error w).2 = None) →
  Logged.keeps P (Logged.createLoggingAdapter (Some f)).
Proof.
  intros Hkeeps Hreturns message error w Hw.
  specialize (Hkeeps message error w Hw). specialize (Hreturns message error w).
  unfold Logged.createLoggingAdapter. simpl.
  destruct error; destruct (f message _ w) as [w1 [x|]]; simpl in *; done.
Qed.

(** ... or when the console calls keep it too. *)
Lemma keeps_console (P : World → Prop) (f : LoggingAdapter) :
  Logged.keeps P f →
  (∀ message error w, P w → P (Logged.consoleLog message error w)) →
  (∀ e w, P w → P (Logged.consoleError e w)) →
  Logged.keeps P (Logged.createLoggingAdapter (Some f)).
Proof.
  intros Hkeeps Hlog Herror message error w Hw.
  specialize (Hkeeps message error w Hw).
  unfold Logged.createLoggingAdapter. simpl.
  destruct error; destruct (f message _ w) as [w1 [x|]]; simpl in *; auto.
Qed.

(** *** Rules for computations *)

Lemma yields_ret {A} (P : World → Prop) (a : A) :
  Logged.yields P (mret a) (eq (Logged.Ret a)).
Proof. by intros w Hw. Qed.

Lemma yields_throw {A} (P : World → Prop) (e : E) :
  Logged.yields P (Logged.throw (A:=A) e) (eq (Logged.Thr e)).
Proof. by intros w Hw. Qed.

Lemma yields_hang {A} (P : World → Prop) :
  Logged.yields P (Logged.hang (A:=A)) (eq Logged.Hang).
Proof. by intros w Hw. Qed.

Lemma yields_bind_ret {A B} (P : World → Prop) (m : M A) (k : A → M B) (a : A)
    (R : Logged.Outcome E B → Prop) :
  Logged.yields P m (eq (Logged.Ret a)) → Logged.yields P (k a) R →
  Logged.yields P (m ≫= k) R.
Proof.
  intros Hm Hk w Hw. destruct (Hm w Hw) as [Hw' Ha].
  unfold mbind, Logged.M_bind. destruct (m w) as [w' o]. simpl in *. subst o.
  by apply Hk.
Qed.

Lemma yields_bind_thr {A B} (P : World → Prop) (m : M A) (k : A → M B) (e : E) :
  Logged.yields P m (eq (Logged.Thr e)) →
  Logged.yields P (m ≫= k) (eq (Logged.Thr e)).
Proof.
  intros Hm w Hw. destruct (Hm w Hw) as [Hw' Ha].
  unfold mbind, Logged.M_bind. destruct (m w) as [w' o]. simpl in *. by subst o.
Qed.

Lemma yields_bind_hang {A B} (P : World → Prop) (m : M A) (k : A → M B) :
  Logged.yields P m (eq Logged.Hang) →
  Logged.yields P (m ≫= k) (eq Logged.Hang).
Proof.
  intros Hm w Hw. destruct (Hm w Hw) as [Hw' Ha].
  unfold mbind, Logged.M_bind. destruct (m w) as [w' o]. simpl in *. by subst o.
Qed.

Lemma yields_try_hang {A} (P : World → Prop) (body : M A) (handler : E → M A) :
  Logged.yields P body (eq Logged.Hang) →
  Logged.yields P (Logged.try_catchM body handler) (eq Logged.Hang).
Proof.
  intros Hm w Hw. destruct (Hm w Hw) as [Hw' Ha].
  unfold Logged.try_catchM. destruct (body w) as [w' o]. simpl in *. by subst o.
Qed.

Lemma yields_try_ret {A} (P : World → Prop) (body : M A) (handler : E → M A) (a : A) :
  Logged.yields P body (eq (Logged.Ret a)) →
  Logged.yields P (Logged.try_catchM body handler) (eq (Logged.Ret a)).
Proof.
  intros Hm w Hw. destruct (Hm w Hw) as [Hw' Ha].
  unfold Logged.try_catchM. destruct (body w) as [w' o]. simpl in *. by subst o.
Qed.

Lemma yields_try_thr {A} (P : World → Prop) (body : M A) (handler : E → M A) (e : E)
    (R : Logged.Outcome E A → Prop) :
  Logged.yields P body (eq (Logged.Thr e)) → Logged.yields P (handler e) R →
  Logged.yields P (Logged.try_catchM body handler) R.
Proof.
  intros Hm Hh w Hw. destruct (Hm w Hw) as [Hw' Ha].
  unfold Logged.try_catchM. destruct (body w) as [w' o]. simpl in *. subst o.
  by apply Hh.
Qed.

Lemma yields_weaken {A} (P : World → Prop) (m : M A)
    (R R' : Logged.Outcome E A → Prop) :
  Logged.yields P m R → (∀ o, R o → R' o) → Logged.yields P m R'.
Proof. intros Hm HR w Hw. destruct (Hm w Hw). auto. Qed.

Lemma yields_bind {A B} (P : World → Prop) (m : M A) (k : A → M B)
    (R1 : Logged.Outcome E A → Prop) (R : Logged.Outcome E B → Prop) :
  Logged.yields P m R1 →
  (∀ a, R1 (Logged.Ret a) → Logged.yields P (k a) R) →
  (∀ e, R1 (Logged.Thr e) → R (Logged.Thr e)) →
  (R1 Logged.Hang → R Logged.Hang) →
  Logged.yields P (m ≫= k) R.
Proof.
  intros Hm Hk He Hh w Hw. destruct (Hm w Hw) as [Hw' Ho].
  unfold mbind, Logged.M_bind. destruct (m w) as [w' [a|e|]]; simpl in *.
  - by apply Hk.
  - auto.
  - auto.
Qed.

Lemma yields_try {A} (P : World → Prop) (body : M A) (handler : E → M A)
    (R1 R : Logged.Outcome E A → Prop) :
  Logged.yields P body R1 →
  (∀ a, R1 (Logged.Ret a) → R (Logged.Ret a)) →
  (∀ e, R1 (Logged.Thr e) → Logged.yields P (handler e) R) →
  (R1 Logged.Hang → R Logged.Hang) →
  Logged.yields P (Logged.try_catchM body handler) R.
Proof.
  intros Hm Ha Hh Hg w Hw. destruct (Hm w Hw) as [Hw' Ho].
  unfold Logged.try_catchM. destruct (body w) as [w' [a|e|]]; simpl in *.
  - auto.
  - by apply Hh.
  - auto.
Qed.

Lemma yields_call (P : World → Prop) (logger : option LoggingAdapter)
    (message : string) (error : option E) :
  Logged.keeps P (Logged.adapterOf logger) →
  Logged.yields P (Logged.call (Logged.adapterOf logger) message error)
    (eq (Logged.Ret tt)).
Proof.
  intros Hkeeps w Hw. specialize (Hkeeps message error w Hw).
  pose proof (adapter_returns (Some (default Logged.defaultLogger logger))
                message error w) as Hret.
  unfold Logged.call. fold (Logged.adapterOf logger) in Hret.
  destruct (Logged.adapterOf logger message error w) as [w' [x|]];
    simpl in *; done.
Qed.

End LoggingProperties.

Section LoggingRefinement.
Context {E S : Type} (env : Env) (rt : Logged.Runtime E).
Context (P : Logged.World E S → Prop) (logger : option (@Logged.LoggingAdapter E S)).
Hypothesis logger_keeps : Logged.keeps P (Logged.adapterOf logger).

#[local] Abbreviation log := (Logged.call (Logged.adapterOf logger)).

(** Pass the calls of the logger at the head of a computation. *)
Ltac logs :=
  repeat (eapply yields_bind_ret; [by apply yields_call|]).

(** Run a computation whose branches are decided. *)
Ltac exec :=
  repeat (cbv beta iota zeta;
          first [ apply yields_ret
                | apply yields_throw
                | eapply yields_bind_ret; [by apply yields_call|]
                | eapply yields_bind_ret;
                    [solve [logs; cbv beta iota zeta; apply yields_ret]|]
                | apply yields_bind_thr;
                    solve [logs; cbv beta iota zeta; apply yields_throw] ]).

Lemma bind_ret_l {A B} (a : A) (k : A → Logged.M (E:=E) (S:=S) B) :
  mret a ≫= k = k a.
Proof. reflexivity. Qed.

Lemma scanStep_logged (callerOrigin originStr : string) (q : Quota) :
  Logged.yields P (Logged.scanStep env rt log callerOrigin q originStr)
    (eq (Logged.Ret (scanStep env callerOrigin q originStr))).
Proof.
  unfold Logged.scanStep, scanStep, labelOf.
  destruct (URL_new env originStr) as [u|].
  2:{ eapply yields_bind_ret;
        [ eapply yields_try_thr; [logs; apply yields_throw | logs; apply yields_ret]
        | apply yields_ret ]. }
  eapply yields_bind_ret.
  { apply yields_try_ret. logs. apply yields_ret. }
  cbv beta iota zeta.
  destruct (negb (JS.truthy (hostname u))).
  { logs. apply yields_ret. }
  destruct (getLabel env (hostname u)) as [l|].
  2:{ eapply yields_bind_ret;
        [ eapply yields_try_thr; [logs; apply yields_throw | logs; apply yields_ret]
        | apply yields_ret ]. }
  eapply yields_bind_ret.
  { apply yields_try_ret. logs. apply yields_ret. }
  cbv beta iota zeta.
  destruct (negb (bool_decide (l ∈ uniqueLabels q))).
  - destruct (CONSTANTS.MAX_LABELS <=? size (uniqueLabels q))%nat.
    + eapply yields_bind_ret; [logs; apply yields_ret|]. apply yields_ret.
    + eapply yields_bind_ret; [logs; apply yields_ret|].
      cbv beta iota zeta. logs. unfold sameSchemeAndHost.
      destruct (_ && _); [logs|]; apply yields_ret.
  - eapply yields_bind_ret; [logs; apply yields_ret|].
    cbv beta iota zeta. logs. unfold sameSchemeAndHost.
    destruct (_ && _); [logs|]; apply yields_ret.
Qed.

Lemma scan_logged (callerOrigin : string) (origins : list string) (q : Quota) :
  Logged.yields P (Logged.scan env rt log callerOrigin origins q)
    (eq (Logged.Ret (scan env callerOrigin origins q))).
Proof.
  revert q; induction origins as [|x xs IH]; intros q; simpl.
  - apply yields_ret.
  - eapply yields_bind_ret; [apply scanStep_logged|].
    destruct (scanStep env callerOrigin q x); [apply yields_ret | apply IH].
Qed.

(** With any logger, [validateWellKnownJSON] of the logging version
    ends as the plain one: it returns the same status, and throws the error
    of the property read on [null] where the plain one throws.  Whatever
    the wrapped logger keeps true of the world stays true. *)
Lemma validateWellKnownJSON_runs (callerOrigin jsonData : string) :
  Logged.yields P (Logged.validateWellKnownJSON env rt callerOrigin jsonData logger)
    (eq (match validateWellKnownJSON env callerOrigin jsonData with
         | Return status => Logged.Ret status
         | Throw _ => Logged.Thr (Logged.type_error rt)
         end)).
Proof.
  unfold Logged.validateWellKnownJSON, validateWellKnownJSON.
  change (Logged.call _) with log.
  destruct (JSON_parse env jsonData) as [v|].
  2:{ eapply yields_bind_ret;
        [ eapply yields_try_thr; [logs; apply yields_throw | logs; apply yields_ret]
        | apply yields_ret ]. }
  eapply yields_bind_ret.
  { apply yields_try_ret. logs. apply yields_ret. }
  cbv beta iota zeta.
  destruct (get_origins v) as [origins|e].
  2:{ apply yields_bind_thr. apply yields_throw. }
  eapply yields_bind_ret; [apply yields_ret|].
  destruct (negb (truthy origins) || negb (isArray origins)).
  { logs. apply yields_ret. }
  destruct origins as [[| | | |elems|]|]; try apply yields_ret.
  destruct (all_strings elems) as [strs|].
  2:{ logs. apply yields_ret. }
  logs.
  destruct (URL_new env callerOrigin) as [u|].
  2:{ eapply yields_bind_ret;
        [ eapply yields_try_thr; [logs; apply yields_throw | logs; apply yields_ret]
        | apply yields_ret ]. }
  eapply yields_bind_ret.
  { apply yields_try_ret. logs. apply yields_ret. }
  cbv beta iota zeta. logs.
  eapply yields_bind_ret; [apply scan_logged|].
  destruct (scan env callerOrigin strs emptyQuota) as [|q]; [apply yields_ret|].
  destruct (hitLimits q); logs; apply yields_ret.
Qed.

(** With any logger, [fetchWellKnownWebAuthn] of the logging version
    returns the body that the plain one returns, throws where the plain
    one throws, and stays pending where the plain one does. *)
Lemma fetchWellKnownWebAuthn_runs (domain : string) :
  Logged.yields P (Logged.fetchWellKnownWebAuthn env rt domain logger)
    (Logged.agrees (fetchWellKnownWebAuthn env domain)).
Proof.
  unfold Logged.fetchWellKnownWebAuthn, fetchWellKnownWebAuthn.
  change (Logged.call _) with log.
  set (d := if negb (JS.startsWith domain "https://")
               && negb (JS.startsWith domain "http://")
            then "https://" +:+ domain else domain).
  eapply (yields_bind_ret _ _ _ d).
  { subst d. destruct (_ && _); [logs|]; apply yields_ret. }
  destruct (URL_new env d) as [u|].
  2:{ eapply yields_weaken.
      - apply yields_bind_thr.
        eapply yields_try_thr; [logs; apply yields_throw | logs; apply yields_throw].
      - by intros o <-. }
  eapply yields_bind_ret.
  { apply yields_try_ret. logs. apply yields_ret. }
  cbv beta iota zeta. logs.
  set (url := protocol u +:+ "//" +:+ hostname u +:+ CONSTANTS.WELL_KNOWN_PATH).
  (* whatever the body of the [try] throws, the handler throws *)
  assert (∀ e, Logged.yields P
                 (if Logged.isAbortError rt e
                  then _ ← log ("Request timed out after "
                                +:+ numberToString CONSTANTS.TIMEOUT +:+ "ms") None;
                       Logged.throw (A:=string) (Logged.mkError rt "Request timeout")
                  else _ ← log "Fetch error" (Some e); Logged.throw e)
                 (λ o, ∃ x, o = Logged.Thr x)) as Hhandler.
  { intros e. destruct (Logged.isAbortError rt e); logs;
      (eapply yields_weaken; [apply yields_throw | by eauto]). }
  assert (∀ (body : Logged.M string) e,
            Logged.yields P body (eq (Logged.Thr e)) →
            ∀ err, Logged.yields P
                     (Logged.try_catchM body
                        (λ error,
                           if Logged.isAbortError rt error
                           then _ ← log ("Request timed out after "
                                         +:+ numberToString CONSTANTS.TIMEOUT
                                         +:+ "ms") None;
                                Logged.throw (Logged.mkError rt "Request timeout")
                           else _ ← log "Fetch error" (Some error);
                                Logged.throw error))
                     (Logged.agrees (Throw err))) as Hthrows.
  { intros body e Hbody err. eapply yields_try_thr; [done|].
    eapply yields_weaken; [apply Hhandler|]. by intros o [x ->]. }
  destruct (fetch env url) as [r|r| |]; [| |eapply Hthrows; exec..].
  2:{ (* the body never arrives *)
      rewrite bind_ret_l. cbv beta iota.
      destruct (negb (ok r)); [eapply Hthrows; exec|].
      assert (∀ header : Logged.M unit,
                Logged.yields P header (eq (Logged.Ret tt)) →
                Logged.yields P
                  (Logged.try_catchM
                     (_ ← log ("Received response: HTTP "
                               +:+ numberToString (status r) +:+ " "
                               +:+ Logged.statusText rt r) None;
                      _ ← mret ();
                      _ ← header;
                      body ← Logged.hang;
                      let len := Z.of_nat (String.length body) in
                      _ ← log ("Received response body: " +:+ numberToString len
                               +:+ " bytes") None;
                      if len >? CONSTANTS.MAX_BODY_SIZE
                      then
                        let errorMsg := "Response too large: "
                                        +:+ numberToString len +:+ " bytes" in
                        _ ← log errorMsg None;
                        Logged.throw (Logged.mkError rt errorMsg)
                      else mret body)
                     (λ error,
                        if Logged.isAbortError rt error
                        then _ ← log ("Request timed out after "
                                      +:+ numberToString CONSTANTS.TIMEOUT
                                      +:+ "ms") None;
                             Logged.throw (Logged.mkError rt "Request timeout")
                        else _ ← log "Fetch error" (Some error);
                             Logged.throw error))
                  (Logged.agrees (A:=string) Pending)) as Hstalls.
      { intros header Hheader. eapply yields_weaken.
        - apply yields_try_hang. exec. eapply yields_bind_ret; [done|].
          apply yields_bind_hang, yields_hang.
        - by intros o <-. }
      destruct (content_length r) as [cl|]; [|apply Hstalls; exec].
      destruct (JS.truthy cl); [|apply Hstalls; exec].
      destruct (JS.parseInt cl) as [n|]; [|apply Hstalls; exec].
      destruct (n >? CONSTANTS.MAX_BODY_SIZE); [|apply Hstalls; exec].
      eapply Hthrows. exec. }
  rewrite bind_ret_l. cbv beta iota.
  destruct (negb (ok r)); [eapply Hthrows; exec|].
  assert (∀ t, text r = Some t →
               (Z.of_nat (String.length t) >? CONSTANTS.MAX_BODY_SIZE) = false →
               Logged.yields P
                 (body ← mret t;
                  (let len := Z.of_nat (String.length body) in
                   _ ← log ("Received response body: " +:+ numberToString len
                            +:+ " bytes") None;
                   if len >? CONSTANTS.MAX_BODY_SIZE
                   then
                     let errorMsg := "Response too large: " +:+ numberToString len
                                     +:+ " bytes" in
                     _ ← log errorMsg None;
                     Logged.throw (Logged.mkError rt errorMsg)
                   else mret body))
                 (eq (Logged.Ret t))) as Hsmall.
  { intros t _ Hbig. exec. rewrite Hbig. exec. }
  assert (∀ t, text r = Some t →
               (Z.of_nat (String.length t) >? CONSTANTS.MAX_BODY_SIZE) = true →
               ∃ e, Logged.yields P
                 (body ← mret t;
                  (let len := Z.of_nat (String.length body) in
                   _ ← log ("Received response body: " +:+ numberToString len
                            +:+ " bytes") None;
                   if len >? CONSTANTS.MAX_BODY_SIZE
                   then
                     let errorMsg := "Response too large: " +:+ numberToString len
                                     +:+ " bytes" in
                     _ ← log errorMsg None;
                     Logged.throw (Logged.mkError rt errorMsg)
                   else mret body))
                 (eq (Logged.Thr (A:=string) e))) as Hlarge.
  { intros t _ Hbig. eexists. exec. rewrite Hbig. exec. }
  assert (∀ header : Logged.M unit,
            Logged.yields P header (eq (Logged.Ret tt)) →
            Logged.yields P
              (Logged.try_catchM
                 (_ ← log ("Received response: HTTP "
                           +:+ numberToString (status r) +:+ " "
                           +:+ Logged.statusText rt r) None;
                  _ ← mret ();
                  _ ← header;
                  body ← match text r with
                         | Some t => mret t
                         | None => Logged.throw (Logged.text_rejected rt r)
                         end;
                  let len := Z.of_nat (String.length body) in
                  _ ← log ("Received response body: " +:+ numberToString len
                           +:+ " bytes") None;
                  if len >? CONSTANTS.MAX_BODY_SIZE
                  then
                    let errorMsg := "Response too large: " +:+ numberToString len
                                    +:+ " bytes" in
                    _ ← log errorMsg None;
                    Logged.throw (Logged.mkError rt errorMsg)
                  else mret body)
                 (λ error,
                    if Logged.isAbortError rt error
                    then _ ← log ("Request timed out after "
                                  +:+ numberToString CONSTANTS.TIMEOUT
                                  +:+ "ms") None;
                         Logged.throw (Logged.mkError rt "Request timeout")
                    else _ ← log "Fetch error" (Some error);
                         Logged.throw error))
              (Logged.agrees
                 match text r with
                 | Some body =>
                     if Z.of_nat (String.length body) >? CONSTANTS.MAX_BODY_SIZE
                     then Throw (ResponseTooLarge (Z.of_nat (String.length body)))
                     else Return body
                 | None => Throw NetworkError
                 end)) as Hrest.
  { intros header Hheader.
    destruct (text r) as [t|] eqn:Ht.
    2:{ eapply Hthrows. exec. eapply yields_bind_ret; [done|]. exec. }
    destruct (Z.of_nat (String.length t) >? CONSTANTS.MAX_BODY_SIZE) eqn:Hbig.
    - destruct (Hlarge t eq_refl Hbig) as [e He].
      eapply Hthrows. exec. eapply yields_bind_ret; [done|]. apply He.
    - eapply yields_weaken.
      + apply yields_try_ret. exec. eapply yields_bind_ret; [done|].
        by apply Hsmall.
      + by intros o <-. }
  destruct (content_length r) as [cl|]; [|apply Hrest; exec].
  destruct (JS.truthy cl); [|apply Hrest; exec].
  destruct (JS.parseInt cl) as [n|]; [|apply Hrest; exec].
  destruct (n >? CONSTANTS.MAX_BODY_SIZE); [|apply Hrest; exec].
  eapply Hthrows. exec.
Qed.

(** With any logger, [validateOrigin] of the logging version returns
    the status that the plain one returns. *)
Lemma validateOrigin_runs (callerOrigin domain : string) :
  Logged.yields P (Logged.validateOrigin env rt callerOrigin domain logger)
    (Logged.agrees (validateOrigin env callerOrigin domain)).
Proof.
  unfold Logged.validateOrigin, validateOrigin.
  change (Logged.call _) with log. logs.
  destruct (isValidDomainForOrigin env callerOrigin domain).
  { logs. eapply yields_weaken; [apply yields_ret | by intros o <-]. }
  logs.
  assert (∀ e, Logged.yields P
                 (_ ← log ("Failed to fetch or parse .well-known/webauthn for domain "
                           +:+ Logged.quoted domain) (Some e);
                  mret BAD_RELYING_PARTY_ID_NO_JSON_MATCH)
                 (Logged.agrees (Return BAD_RELYING_PARTY_ID_NO_JSON_MATCH)))
    as Hcatch.
  { intros e. logs. eapply yields_weaken; [apply yields_ret | by intros o <-]. }
  eapply (yields_try _ _ _
            (λ o, match fetchWellKnownWebAuthn env domain with
                  | Settled (Return jsonData) =>
                      Logged.agrees
                        (validateWellKnownJSON env callerOrigin jsonData) o
                  | Settled (Throw _) => ∃ x, o = Logged.Thr x
                  | Pending => o = Logged.Hang
                  end)).
  - eapply yields_bind; [apply fetchWellKnownWebAuthn_runs | | |].
    + intros jsonData Hfetch.
      destruct (fetchWellKnownWebAuthn env domain) as [[j|]|]; [|done..].
      simpl in Hfetch. subst j. logs.
      eapply yields_weaken; [apply validateWellKnownJSON_runs|].
      intros o <-.
      by destruct (validateWellKnownJSON env callerOrigin jsonData).
    + intros x Hfetch.
      destruct (fetchWellKnownWebAuthn env domain) as [[|]|];
        [done | by eauto | done].
    + intros Hfetch.
      by destruct (fetchWellKnownWebAuthn env domain) as [[|]|].
  - intros s Hs. destruct (fetchWellKnownWebAuthn env domain) as [[j|]|]; simpl.
    + by destruct (validateWellKnownJSON env callerOrigin j).
    + by destruct Hs.
    + done.
  - intros x Hx. destruct (fetchWellKnownWebAuthn env domain) as [[j|]|]; simpl.
    + destruct (validateWellKnownJSON env callerOrigin j); [done|].
      apply Hcatch.
    + apply Hcatch.
    + done.
  - intros Hh. destruct (fetchWellKnownWebAuthn env domain) as [[j|]|]; simpl.
    + by destruct (validateWellKnownJSON env callerOrigin j).
    + by destruct Hh.
    + done.
Qed.

(** The plain [validateWellKnownJSON] throws nothing but the error of the
    property read on [null]. *)
Lemma validateWellKnownJSON_throws (callerOrigin jsonData : string) (e : Error) :
  validateWellKnownJSON env callerOrigin jsonData = Throw e → e = TypeError.
Proof.
  unfold validateWellKnownJSON.
  destruct (JSON_parse env jsonData) as [v|]; [|done].
  destruct v; simpl; try (intros; repeat case_match; simplify_eq; done).
Qed.

(** With any logger, the two entry points of the logging version
    return the result of the plain ones: [validatePasskeyOrigin] for every
    reading of error messages, since its [catch] branch is never taken, and
    [validatePasskeyOriginFromJSON] when the message of the error of the
    property read on [null] is read alike. *)
Lemma entry_points_run (error_message : Error → string) :
  (∀ rpId origin,
     Logged.yields P (Logged.validatePasskeyOrigin env rt rpId origin logger)
       (Logged.agrees (Index.validatePasskeyOrigin env error_message rpId origin)))
  ∧ (error_message TypeError = Logged.errorMessage rt (Logged.type_error rt) →
     ∀ origin wellKnownJson,
       Logged.yields P
         (Logged.validatePasskeyOriginFromJSON env rt origin wellKnownJson logger)
         (Logged.agrees
            (Index.validatePasskeyOriginFromJSON env error_message
               origin wellKnownJson))).
Proof.
  assert (∀ s, Logged.yields P (Logged.reportLogged log s)
                 (eq (Logged.Ret (Index.report s)))) as Hreport.
  { intros s. unfold Logged.reportLogged. exec. }
  split.
  - intros rpId origin.
    unfold Logged.validatePasskeyOrigin, Index.validatePasskeyOrigin.
    change (Logged.call _) with log.
    destruct (validateOrigin_always env origin rpId) as [Hs|(s & Hs & _)];
      rewrite Hs; simpl.
    { eapply yields_weaken.
      - apply yields_try_hang. logs. apply yields_bind_hang.
        eapply yields_weaken; [apply validateOrigin_runs|].
        rewrite Hs. by intros [s'|x|] Ho.
      - by intros o <-. }
    eapply yields_weaken.
    + apply yields_try_ret. logs.
      eapply (yields_bind_ret _ _ _ s); [|apply Hreport].
      eapply yields_weaken; [apply validateOrigin_runs|].
      rewrite Hs. by intros [s'|x|] Ho; simpl in Ho; subst.
    + by intros o <-.
  - intros Hmessage origin wellKnownJson.
    unfold Logged.validatePasskeyOriginFromJSON,
      Index.validatePasskeyOriginFromJSON.
    change (Logged.call _) with log.
    pose proof (validateWellKnownJSON_runs origin wellKnownJson) as Hvalidate.
    destruct (validateWellKnownJSON env origin wellKnownJson) as [s|e] eqn:Hplain;
      simpl.
    + eapply yields_weaken.
      * apply yields_try_ret. logs.
        eapply yields_bind_ret; [apply Hvalidate | apply Hreport].
      * by intros o <-.
    + apply validateWellKnownJSON_throws in Hplain as ->.
      eapply yields_weaken.
      * eapply yields_try_thr.
        -- logs. apply yields_bind_thr. apply Hvalidate.
        -- logs. apply yields_ret.
      * intros o <-. simpl. by rewrite Hmessage.
Qed.

End LoggingRefinement.

(** ** The logging version and the plain one *)

Section LoggedResults.
Context {E S : Type} (env : Env) (rt : Logged.Runtime E).

#[local] Abbreviation LoggingAdapter := (@Logged.LoggingAdapter E S).

Lemma keeps_True (f : LoggingAdapter) : Logged.keeps (λ _, True) f.
Proof. done. Qed.

(** X11.  With any logger, also one that throws, [validateWellKnownJSON] of
    the logging version ends as the plain one: it returns the same status,
    and throws the error of the property read on [null] where the plain
    one throws.  What the wrapped logger keeps true of the world is true at
    the end. *)
Theorem validateWellKnownJSON_logged (logger : option LoggingAdapter)
    (callerOrigin jsonData : string) :
  (∀ w,
     (Logged.validateWellKnownJSON env rt callerOrigin jsonData logger w).2
     = match validateWellKnownJSON env callerOrigin jsonData with
       | Return status => Logged.Ret status
       | Throw _ => Logged.Thr (Logged.type_error rt)
       end)
  ∧ (∀ P, Logged.keeps P (Logged.adapterOf logger) →
          ∀ w, P w →
               P (Logged.validateWellKnownJSON env rt callerOrigin jsonData
                    logger w).1).
Proof.
  split.
  - intros w. symmetry.
    by apply (validateWellKnownJSON_runs env rt (λ _, True) logger
                (keeps_True _) callerOrigin jsonData w).
  - intros P Hkeeps w Hw.
    by apply (validateWellKnownJSON_runs env rt P logger Hkeeps).
Qed.

(** X12.  With any logger, [fetchWellKnownWebAuthn] of the logging version
    returns the body that the plain one returns, throws where the plain
    one throws and stays pending where the plain one does, and what the
    wrapped logger keeps true of the world is true at the end. *)
Theorem fetchWellKnownWebAuthn_logged (logger : option LoggingAdapter)
    (domain : string) :
  (∀ w, Logged.agrees (fetchWellKnownWebAuthn env domain)
          (Logged.fetchWellKnownWebAuthn env rt domain logger w).2)
  ∧ (∀ P, Logged.keeps P (Logged.adapterOf logger) →
          ∀ w, P w → P (Logged.fetchWellKnownWebAuthn env rt domain logger w).1).
Proof.
  split.
  - intros w.
    by apply (fetchWellKnownWebAuthn_runs env rt (λ _, True) logger
                (keeps_True _) domain w).
  - intros P Hkeeps w Hw.
    by apply (fetchWellKnownWebAuthn_runs env rt P logger Hkeeps).
Qed.

(** X13.  With any logger, [validateOrigin] of the logging version never
    throws: it stays pending when the plain one does, and otherwise returns
    the status that the plain one returns.  What the wrapped logger keeps
    true of the world is true at the end. *)
Theorem validateOrigin_logged (logger : option LoggingAdapter)
    (callerOrigin domain : string) :
  (∀ w,
     (validateOrigin env callerOrigin domain = Pending
      ∧ (Logged.validateOrigin env rt callerOrigin domain logger w).2
        = Logged.Hang)
     ∨ ∃ status,
         validateOrigin env callerOrigin domain = Return status
         ∧ (Logged.validateOrigin env rt callerOrigin domain logger w).2
           = Logged.Ret status)
  ∧ (∀ P, Logged.keeps P (Logged.adapterOf logger) →
          ∀ w, P w →
               P (Logged.validateOrigin env rt callerOrigin domain logger w).1).
Proof.
  split.
  - intros w.
    destruct (validateOrigin_runs env rt (λ _, True) logger (keeps_True _)
                callerOrigin domain w I) as [_ Hagrees].
    destruct (validateOrigin_always env callerOrigin domain)
      as [Hs|(s & Hs & _)]; rewrite Hs in Hagrees.
    + left. split; [done|].
      by destruct (Logged.validateOrigin env rt callerOrigin domain logger w).2.
    + right. exists s. split; [done|].
      destruct (Logged.validateOrigin env rt callerOrigin domain logger w).2;
        simpl in Hagrees; by subst.
  - intros P Hkeeps w Hw.
    by apply (validateOrigin_runs env rt P logger Hkeeps).
Qed.

(** X14.  With any logger, [validatePasskeyOrigin] and
    [validatePasskeyOriginFromJSON] of the logging version never throw and
    return the result of the plain ones (for the second, with the message
    of the error of the property read on [null] as the run time gives
    it); [validatePasskeyOrigin] stays pending when the plain one does. *)
Theorem entry_points_logged (logger : option LoggingAdapter)
    (error_message : Error → string) :
  (∀ rpId origin w,
     (Index.validatePasskeyOrigin env error_message rpId origin = Pending
      ∧ (Logged.validatePasskeyOrigin env rt rpId origin logger w).2
        = Logged.Hang)
     ∨ ∃ r,
         Index.validatePasskeyOrigin env error_message rpId origin = Return r
         ∧ (Logged.validatePasskeyOrigin env rt rpId origin logger w).2
           = Logged.Ret r)
  ∧ (∀ origin wellKnownJson w, ∃ r,
       Index.validatePasskeyOriginFromJSON env
         (λ _, Logged.errorMessage rt (Logged.type_error rt)) origin wellKnownJson
         = Return r
       ∧ (Logged.validatePasskeyOriginFromJSON env rt origin wellKnownJson
            logger w).2 = Logged.Ret r).
Proof.
  split.
  - intros rpId origin w.
    destruct (entry_points_run env rt (λ _, True) logger (keeps_True _)
                error_message) as [Hrun _].
    destruct (Hrun rpId origin w I) as [_ Hagrees].
    destruct (Index.validatePasskeyOrigin env error_message rpId origin)
      as [[r|e]|] eqn:Hplain.
    + right. exists r. split; [done|].
      destruct (Logged.validatePasskeyOrigin env rt rpId origin logger w).2;
        simpl in Hagrees; by subst.
    + unfold Index.validatePasskeyOrigin in Hplain.
      destruct (validateOrigin_always env origin rpId) as [Hs|(s & Hs & _)];
        by rewrite Hs in Hplain.
    + left. split; [done|].
      by destruct (Logged.validatePasskeyOrigin env rt rpId origin logger w).2.
  - intros origin wellKnownJson w.
    destruct (entry_points_run env rt (λ _, True) logger (keeps_True _)
                (λ _, Logged.errorMessage rt (Logged.type_error rt)))
      as [_ Hrun].
    destruct (Hrun eq_refl origin wellKnownJson w I) as [_ Hagrees].
    destruct (Index.validatePasskeyOriginFromJSON env _ origin wellKnownJson)
      as [r|e] eqn:Hplain.
    + exists r. split; [done|].
      destruct (Logged.validatePasskeyOriginFromJSON env rt origin
                  wellKnownJson logger w).2; simpl in Hagrees; by subst.
    + unfold Index.validatePasskeyOriginFromJSON in Hplain.
      by destruct (validateWellKnownJSON env origin wellKnownJson).
Qed.

(** X15.  A validation writes to the console only through the default
    logger or when the logger throws.  Without a logger, nothing goes to
    [console.error] and nothing outside the console changes; with a logger
    that always returns and leaves the console as it is, a run of
    [validatePasskeyOrigin] or [validatePasskeyOriginFromJSON] leaves the
    console as it is. *)
Theorem console_untouched (w : Logged.World E S) :
  (∀ rpId origin,
     let w' := (Logged.validatePasskeyOrigin env rt rpId origin None w).1 in
     Logged.console_error w' = Logged.console_error w
     ∧ Logged.custom w' = Logged.custom w)
  ∧ (∀ origin wellKnownJson,
       let w' := (Logged.validatePasskeyOriginFromJSON env rt origin
                    wellKnownJson None w).1 in
       Logged.console_error w' = Logged.console_error w
       ∧ Logged.custom w' = Logged.custom w)
  ∧ (∀ f : LoggingAdapter,
       (∀ message error w0,
          (f message error w0).2 = None
          ∧ Logged.console_log (f message error w0).1 = Logged.console_log w0
          ∧ Logged.console_error (f message error w0).1
            = Logged.console_error w0) →
       (∀ rpId origin,
          let w' := (Logged.validatePasskeyOrigin env rt rpId origin (Some f) w).1 in
          Logged.console_log w' = Logged.console_log w
          ∧ Logged.console_error w' = Logged.console_error w)
       ∧ (∀ origin wellKnownJson,
            let w' := (Logged.validatePasskeyOriginFromJSON env rt origin
                         wellKnownJson (Some f) w).1 in
            Logged.console_log w' = Logged.console_log w
            ∧ Logged.console_error w' = Logged.console_error w)).
Proof.
  set (P0 := λ w' : Logged.World E S,
               Logged.console_error w' = Logged.console_error w
               ∧ Logged.custom w' = Logged.custom w).
  assert (Logged.keeps P0 (Logged.adapterOf None)) as Hdefault.
  { apply keeps_returning.
    - intros message error w0 Hw0. by destruct error.
    - intros message error w0. by destruct error. }
  destruct (entry_points_run env rt P0 None Hdefault
              (λ _, Logged.errorMessage rt (Logged.type_error rt)))
    as [Horigin Hjson].
  split; [|split].
  - intros rpId origin. by apply (Horigin rpId origin w).
  - intros origin wellKnownJson.
    by apply (Hjson eq_refl origin wellKnownJson w).
  - intros f Hf.
    set (P1 := λ w' : Logged.World E S,
                 Logged.console_log w' = Logged.console_log w
                 ∧ Logged.console_error w' = Logged.console_error w).
    assert (Logged.keeps P1 (Logged.adapterOf (Some f))) as Hquiet.
    { apply keeps_returning.
      - intros message error w0 [Hl He].
        destruct (Hf message error w0) as (_ & Hl' & He').
        split; congruence.
      - intros message error w0. apply Hf. }
    destruct (entry_points_run env rt P1 (Some f) Hquiet
                (λ _, Logged.errorMessage rt (Logged.type_error rt)))
      as [Horigin' Hjson'].
    split.
    + intros rpId origin. by apply (Horigin' rpId origin w).
    + intros origin wellKnownJson.
      by apply (Hjson' eq_refl origin wellKnownJson w).
Qed.

End LoggedResults.

(** ** What the comparison reads from an origin *)

Section RawComparison.

Lemma prefix_first (c d : ascii) (sep' s : string) :
  c ≠ d → String.prefix (String c sep') (String d s) = false.
Proof. intros Hne. simpl. by destruct (Ascii.ascii_dec c d). Qed.

(** The units of a recognised separator are dropped. *)
Lemma splitFrom_skip (sep x b cur : string) :
  JS.splitFrom sep (x +:+ b) (String.length x) cur = JS.splitFrom sep b 0 cur.
Proof.
  induction x as [|c x IH]; [done|]. simpl. apply IH.
Qed.

(** A string without the separator is one piece. *)
Lemma splitFrom_absent (sep s cur : string) :
  ¬ contains s sep → JS.splitFrom sep s 0 cur = [cur +:+ s].
Proof.
  revert cur; induction s as [|c s IH]; intros cur Hno.
  - simpl. by rewrite append_empty_r.
  - cbn [JS.splitFrom].
    destruct (String.prefix sep (String c s)) eqn:Hp.
    { apply prefix_spec in Hp as [b Hb]. destruct Hno.
      exists EmptyString, b. by rewrite Hb. }
    rewrite IH.
    + by rewrite append_assoc.
    + intros (x & y & ->). apply Hno. by exists (String c x), y.
Qed.

(** The first piece ends at the separator, when no unit before it is the
    first unit of the separator. *)
Lemma splitFrom_first (c : ascii) (sep' a b cur : string) :
  ¬ contains a (String c EmptyString) →
  JS.splitFrom (String c sep') (a +:+ String c sep' +:+ b) 0 cur
  = (cur +:+ a) :: JS.splitFrom (String c sep') b 0 EmptyString.
Proof.
  revert cur; induction a as [|d a IH]; intros cur Hno.
  - rewrite append_empty_r.
    change (EmptyString +:+ String c sep' +:+ b) with (String c (sep' +:+ b)).
    cbn [JS.splitFrom].
    assert (String.prefix (String c sep') (String c (sep' +:+ b)) = true) as ->
      by (apply prefix_spec; by exists b).
    f_equal. cbn [String.length].
    replace (S (String.length sep') - 1)%nat with (String.length sep') by lia.
    apply splitFrom_skip.
  - assert (c ≠ d) as Hne.
    { intros ->. apply Hno. by exists EmptyString, a. }
    change (String d a +:+ String c sep' +:+ b)
      with (String d (a +:+ String c sep' +:+ b)).
    cbn [JS.splitFrom]. rewrite (prefix_first c d) by done.
    rewrite IH.
    + by rewrite append_assoc.
    + intros (x & y & ->). apply Hno. by exists (String d x), y.
Qed.

(** X16.  From a string [scheme://host] or [scheme://host/...] the
    comparison reads the scheme and the host with its port: the scheme has
    no colon, the host has no slash, what follows the host is nothing or
    starts with a slash, and [://] does not occur again.  So of such
    strings, two compare equal exactly when they have the same scheme and
    the same host, whatever follows. *)
Theorem origin_string_parts (scheme host rest : string) :
  ¬ contains scheme ":" →
  ¬ contains host "/" →
  rest = EmptyString ∨ JS.startsWith rest "/" = true →
  ¬ contains (host +:+ rest) "://" →
  schemeOf (scheme +:+ "://" +:+ host +:+ rest) = scheme
  ∧ hostOf (scheme +:+ "://" +:+ host +:+ rest) = host
  ∧ ∀ other,
      sameSchemeAndHost (scheme +:+ "://" +:+ host +:+ rest) other = true
      ↔ schemeOf other = scheme ∧ hostOf other = host.
Proof.
  intros Hscheme Hhost Hrest Honce.
  assert (JS.split (scheme +:+ "://" +:+ host +:+ rest) "://"
          = [scheme; host +:+ rest]) as Hsplit.
  { unfold JS.split. rewrite (splitFrom_first ":" "//") by done.
    by rewrite (splitFrom_absent "://") by done. }
  assert (hd EmptyString (JS.split (host +:+ rest) "/") = host) as Hhd.
  { unfold JS.split. destruct Hrest as [->|Hslash].
    - rewrite append_empty_r. by rewrite splitFrom_absent.
    - apply prefix_spec in Hslash as [path ->].
      by rewrite (splitFrom_first "/" EmptyString). }
  assert (schemeOf (scheme +:+ "://" +:+ host +:+ rest) = scheme) as Hs
    by (unfold schemeOf; by rewrite Hsplit).
  assert (hostOf (scheme +:+ "://" +:+ host +:+ rest) = host) as Hh
    by (unfold hostOf; by rewrite Hsplit).
  split; [done|]. split; [done|].
  intros other. unfold sameSchemeAndHost.
  rewrite Hs, Hh, andb_true_iff, !String.eqb_eq. split; intros [? ?]; by subst.
Qed.

End RawComparison.

(** ** The caller, and documents within the quota *)

Section MatcherCompleteness.
Context (env : Env).

Lemma scan_caller (callerOrigin callerOrigin' : string) (origins : list string)
    (q : Quota) :
  schemeOf callerOrigin = schemeOf callerOrigin' →
  hostOf callerOrigin = hostOf callerOrigin' →
  scan env callerOrigin origins q = scan env callerOrigin' origins q.
Proof.
  intros Hscheme Hhost. revert q; induction origins as [|x xs IH]; intros q.
  { done. }
  assert (scanStep env callerOrigin q x = scanStep env callerOrigin' q x) as Hstep.
  { unfold scanStep, sameSchemeAndHost. by rewrite Hscheme, Hhost. }
  simpl. rewrite Hstep. by destruct (scanStep env callerOrigin' q x).
Qed.

(** X17.  The matcher uses the caller origin in two ways only: whether it
    parses as a URL, and its raw scheme and raw host.  Two callers that
    agree on these get the same result on every document; the hostname
    of the parsed caller is not used. *)
Theorem caller_raw_parts_decide (callerOrigin callerOrigin' jsonData : string) :
  (is_Some (URL_new env callerOrigin) ↔ is_Some (URL_new env callerOrigin')) →
  schemeOf callerOrigin = schemeOf callerOrigin' →
  hostOf callerOrigin = hostOf callerOrigin' →
  validateWellKnownJSON env callerOrigin jsonData
  = validateWellKnownJSON env callerOrigin' jsonData.
Proof.
  intros Hparses Hscheme Hhost. unfold validateWellKnownJSON.
  destruct (JSON_parse env jsonData) as [v|]; [|done].
  destruct (get_origins v) as [origins|]; [|done].
  destruct (negb (truthy origins) || negb (isArray origins)); [done|].
  destruct origins as [[| | | |elems|]|]; try done.
  destruct (all_strings elems) as [strs|]; [|done].
  rewrite (scan_caller callerOrigin callerOrigin') by done.
  destruct (URL_new env callerOrigin) as [u|], (URL_new env callerOrigin') as [u'|];
    try done.
  - destruct Hparses as [Hp _]. by destruct Hp as [? ?]; [eauto|].
  - destruct Hparses as [_ Hp]. by destruct Hp as [? ?]; [eauto|].
Qed.

(** X18.  Within the quota the matcher is complete: a structurally valid
    document whose elements carry at most 5 distinct labels is matched by a
    caller origin that parses exactly when one of its elements has a label
    and compares equal to the caller, wherever it stands in the list. *)
Theorem success_iff_within_quota (callerOrigin jsonData : string)
    (origins : list string) :
  structurallyValid env jsonData origins →
  is_Some (URL_new env callerOrigin) →
  (size (labelsOf env origins) ≤ 5)%nat →
  validateWellKnownJSON env callerOrigin jsonData = Return SUCCESS
  ↔ ∃ originStr, originStr ∈ origins
                 ∧ is_Some (labelOf env originStr)
                 ∧ sameSchemeAndHost originStr callerOrigin = true.
Proof.
  intros Hvalid [u Hu] Hfew.
  rewrite (validate_structurallyValid _ _ _ _ Hvalid), Hu. split.
  - destruct (scan env callerOrigin origins emptyQuota) as [|q] eqn:Hscan.
    + intros _. by apply scan_Matched in Hscan.
    + simpl. by destruct (hitLimits q).
  - intros (o & Hin & [l Hl] & Hsame).
    apply list_elem_of_split in Hin as (pre & post & ->).
    rewrite scan_app.
    destruct (scan env callerOrigin pre emptyQuota) as [|q] eqn:Hpre; [done|].
    apply (tracks_scan env _ _ _ _ _ tracks_empty) in Hpre
      as (_ & _ & Hflag).
    assert (labelsOf env pre ∪ {[l]} ⊆ labelsOf env (pre ++ o :: post)) as Hsub.
    { unfold labelsOf. rewrite omap_app. csimpl. rewrite Hl.
      rewrite list_to_set_app. set_solver. }
    apply subseteq_size in Hsub.
    replace (∅ ∪ labelsOf env pre) with (labelsOf env pre) in Hflag
      by set_solver.
    destruct (hitLimits q) eqn:Hhit.
    { pose proof (subseteq_size (labelsOf env pre) (labelsOf env pre ∪ {[l]})
                    ltac:(set_solver)). lia. }
    simpl.
    destruct (decide (l ∈ uniqueLabels q)) as [Hknown|Hfresh].
    + by rewrite (scanStep_admitted _ _ _ l), Hsame.
    + rewrite (scanStep_room _ _ _ l), Hsame; [done | done | done |].
      rewrite size_union, size_singleton in Hsub by set_solver.
      rewrite Hflag in Hsub. unfold CONSTANTS.MAX_LABELS. lia.
Qed.

End MatcherCompleteness.

(** ** The results above on the fixture *)

Section ResultsOnTheFixture.

#[local] Abbreviation a := "https://a.com" (only parsing).
#[local] Abbreviation b := "https://b.com" (only parsing).
#[local] Abbreviation c := "https://c.com" (only parsing).
#[local] Abbreviation d := "https://d.com" (only parsing).
#[local] Abbreviation e := "https://e.com" (only parsing).
#[local] Abbreviation g := "https://g.com" (only parsing).
#[local] Abbreviation foo := "https://foo.com" (only parsing).

Ltac listed :=
  eexists; split;
  [ vm_compute; reflexivity
  | exists [], []; split; [reflexivity | constructor] ].

(** [success_sound] on a document that lists the caller second. *)
Lemma success_sound_witness :
  is_Some (URL_new Fixture.env foo)
  ∧ ∃ origins,
      structurallyValid Fixture.env (Fixture.wellKnown [a; foo]) origins
      ∧ ∃ originStr, originStr ∈ origins
                     ∧ is_Some (labelOf Fixture.env originStr)
                     ∧ sameSchemeAndHost originStr foo = true.
Proof.
  apply (success_sound Fixture.env foo (Fixture.wellKnown [a; foo])).
  vm_compute; reflexivity.
Defined.

(** [first_match_wins]: six more labels after the caller. *)
Lemma first_match_wins_witness :
  validateWellKnownJSON Fixture.env foo
    (Fixture.wellKnown [foo; "HTTPS://FOO.COM"; a; b; c; d; e; g])
  = Return SUCCESS.
Proof.
  apply (first_match_wins Fixture.env foo (Fixture.wellKnown [foo]) _
           [foo] ["HTTPS://FOO.COM"; a; b; c; d; e; g]);
    [listed | listed | vm_compute; reflexivity].
Defined.

(** [limits_iff_six_labels]: six elements with six labels, and six elements
    with five. *)
Lemma limits_iff_six_labels_witness :
  validateWellKnownJSON Fixture.env foo (Fixture.wellKnown [a; b; c; d; e; g])
    = Return BAD_RELYING_PARTY_ID_NO_JSON_MATCH_HIT_LIMITS
  ∧ validateWellKnownJSON Fixture.env foo
      (Fixture.wellKnown [a; b; c; d; e; "https://www.a.com"])
    = Return BAD_RELYING_PARTY_ID_NO_JSON_MATCH.
Proof.
  assert (is_Some (URL_new Fixture.env foo)) as Hcaller by (vm_compute; eauto).
  split.
  - assert (structurallyValid Fixture.env (Fixture.wellKnown [a; b; c; d; e; g])
              [a; b; c; d; e; g]) as Hvalid by listed.
    rewrite (limits_iff_six_labels Fixture.env _ _ _ Hvalid Hcaller);
      [|by vm_compute].
    rewrite decide_True; [done|]. vm_compute. lia.
  - assert (structurallyValid Fixture.env
              (Fixture.wellKnown [a; b; c; d; e; "https://www.a.com"])
              [a; b; c; d; e; "https://www.a.com"]) as Hvalid by listed.
    rewrite (limits_iff_six_labels Fixture.env _ _ _ Hvalid Hcaller);
      [|by vm_compute].
    rewrite decide_False; [done|]. vm_compute. lia.
Defined.

(** [repeated_origin]: the first element listed again before the caller. *)
Lemma repeated_origin_witness :
  validateWellKnownJSON Fixture.env foo (Fixture.wellKnown [a; b; a; foo])
  = validateWellKnownJSON Fixture.env foo (Fixture.wellKnown [a; b; foo]).
Proof.
  apply (repeated_origin Fixture.env foo _ _ [] [b] [foo] a); listed.
Defined.

(** [origin_string_parts] on an origin with a port and a path. *)
Lemma origin_string_parts_witness :
  schemeOf "https://foo.com:8080/path" = "https"
  ∧ hostOf "https://foo.com:8080/path" = "foo.com:8080".
Proof.
  destruct (origin_string_parts "https" "foo.com:8080" "/path") as (Hscheme & Hhost & _);
    [by apply find_None | by apply find_None | by right | by apply find_None |].
  split; [exact Hscheme | exact Hhost].
Defined.

(** [caller_raw_parts_decide]: a caller with a path and the caller without
    it. *)
Lemma caller_raw_parts_decide_witness :
  validateWellKnownJSON Fixture.env "https://foo.com/login" (Fixture.wellKnown [a; foo])
  = validateWellKnownJSON Fixture.env foo (Fixture.wellKnown [a; foo]).
Proof.
  apply (caller_raw_parts_decide Fixture.env);
    [split; intros _; vm_compute; eauto | reflexivity | reflexivity].
Defined.

(** [success_iff_within_quota]: three labels, the caller listed last with a
    path. *)
Lemma success_iff_within_quota_witness :
  validateWellKnownJSON Fixture.env foo
    (Fixture.wellKnown [a; b; "https://foo.com/path"]) = Return SUCCESS.
Proof.
  apply (success_iff_within_quota Fixture.env foo _ [a; b; "https://foo.com/path"]);
    [listed | vm_compute; eauto | vm_compute; lia |].
  exists "https://foo.com/path".
  split; [repeat constructor|]. split; [vm_compute; eauto | reflexivity].
Defined.

(** The fetch on the fixture's network. *)
Example fetchWellKnownWebAuthn_examples :
  fetchWellKnownWebAuthn Fixture.env "bar.com"
    = Return (Fixture.wellKnown [foo])
  ∧ fetchWellKnownWebAuthn Fixture.env "https://bar.com/some/path"
    = Return (Fixture.wellKnown [foo])
  ∧ fetchWellKnownWebAuthn Fixture.env "gone.example.com" = Throw (HttpError 404)
  ∧ fetchWellKnownWebAuthn Fixture.env "slow.example.com" = Throw RequestTimeout
  ∧ fetchWellKnownWebAuthn Fixture.env "unreachable.example.com" = Throw NetworkError
  ∧ fetchWellKnownWebAuthn Fixture.env "stall.example.com" = Pending.
Proof. by vm_compute. Qed.

(** The entry points on the fixture. *)
Example entry_points_examples :
  let message (_ : Error) := "Cannot read properties of null (reading 'origins')" in
  Index.validatePasskeyOrigin Fixture.env message "bar.com" foo
    = Return {| Index.isValid := true; Index.status := SUCCESS;
                Index.message := "Success" |}
  ∧ Index.validatePasskeyOriginFromJSON Fixture.env message foo "null"
    = Return {| Index.isValid := false;
                Index.status := BAD_RELYING_PARTY_ID_JSON_PARSE_ERROR;
                Index.message :=
                  "Validation failed: "
                  +:+ "Cannot read properties of null (reading 'origins')" |}.
Proof. by vm_compute. Qed.

(** A logging function that throws: the thrown value goes to
    [console.error], the message and the error to [console.log]. *)
Example failing_logger_example :
  Logged.createLoggingAdapter (Some LoggingFixture.failing)
    "Test message" (Some "Original error") LoggingFixture.start
  = ({| Logged.console_log := [("Test message", Some "Original error")];
        Logged.console_error := ["Logger failed"];
        Logged.custom := [] |}, None).
Proof. reflexivity. Qed.

(** What a logger is told in a run of [validatePasskeyOriginFromJSON]. *)
Example logged_run_example :
  let run := Logged.validatePasskeyOriginFromJSON Fixture.env LoggingFixture.rt
               foo (Fixture.wellKnown ["invalid-url"; foo])
               (Some LoggingFixture.collect) LoggingFixture.start in
  Logged.custom run.1
  = [ "Validating origin " +:+ Fixture.quote foo +:+ " against well-known JSON data";
      "Parsing JSON data for validation";
      "JSON validation passed, found 2 origins";
      "Parsing caller origin: https://foo.com";
      "Checking origins for a match with caller origin: https://foo.com";
      "Parsing origin from JSON: invalid-url";
      "Skipping invalid origin: invalid-url";
      "Parsing origin from JSON: https://foo.com";
      "Extracting eTLD+1 label from domain: foo.com";
      "Adding new unique label: foo";
      "Comparing origin " +:+ Fixture.quote foo +:+ " with caller " +:+ Fixture.quote foo;
      "Found matching origin: https://foo.com";
      "Validation result: Valid, status: Success" ]
  ∧ Logged.console_log run.1 = [] ∧ Logged.console_error run.1 = []
  ∧ run.2 = Logged.Ret {| Index.isValid := true; Index.status := SUCCESS;
                          Index.message := "Success" |}.
Proof. by vm_compute. Qed.

(** What a logger is told in a run of [validatePasskeyOrigin] against a
    server whose body never arrives: the run stops at the read of the
    body. *)
Example stalled_run_example :
  let run := Logged.validatePasskeyOrigin Fixture.env LoggingFixture.rt
               "stall.example.com" foo
               (Some LoggingFixture.collect) LoggingFixture.start in
  Logged.custom run.1
  = [ "Validating origin " +:+ Fixture.quote foo +:+ " against rpId "
        +:+ Fixture.quote "stall.example.com";
      "Validating if domain " +:+ Fixture.quote "stall.example.com"
        +:+ " is a valid subdomain of origin " +:+ Fixture.quote foo;
      "Domain " +:+ Fixture.quote "stall.example.com"
        +:+ " is not a valid subdomain of origin " +:+ Fixture.quote foo
        +:+ ", trying .well-known/webauthn endpoint";
      "Adding https:// prefix to domain: stall.example.com";
      "Parsing domain URL: https://stall.example.com";
      "Constructed well-known URL: https://stall.example.com/.well-known/webauthn";
      "Fetching well-known endpoint with 10000ms timeout";
      "Received response: HTTP 200 OK";
      "Content-Length header: 100 bytes" ]
  ∧ run.2 = Logged.Hang.
Proof. by vm_compute. Qed.

End ResultsOnTheFixture.
